(** * GitNexus: worker pool, graph types and graph-RAG tools

    A shallow embedding of
    - the worker pool ([createWorkerPool], [dispatch], [terminate]),
    - the knowledge-graph relationship types ([RelationshipType]),
    - the [search] and [blastRadius] tools of [createGraphRAGTools],
    together with the properties of the specification that concern them. *)

From Stdlib Require Import ZArith String Ascii.
From stdpp Require Import base option list gmap strings pretty.

Local Open Scope nat_scope.

(** ** Worker pool *)

Module WorkerPool.

(** A [Worker] handle; the pool numbers its workers in creation order. *)
Definition Worker := nat.

(** What a dispatch can be rejected with: the [TypeError] raised by
    [worker.on] when [workers[i]] is [undefined], or the payload of a
    worker's ['error'] event. *)
Inductive Error :=
| TypeError
| WorkerError (err : string).

Record WorkerPool := {
  size : nat;
  workers : list Worker;
}.

(** [poolSize ?? Math.max(1, os.cpus().length - 1)], then one
    [new Worker] per index below [size]. *)
Definition createWorkerPool (cpus : nat) (poolSize : option nat) : WorkerPool :=
  let size := match poolSize with
              | Some p => p
              | None => Nat.max 1 (cpus - 1)
              end in
  {| size := size; workers := seq 0 size |}.

(** [terminate]: every worker is terminated and [workers.length = 0]. *)
Definition terminate (pool : WorkerPool) : WorkerPool :=
  {| size := size pool; workers := [] |}.

(** [Math.ceil(n / d)] on lengths, for a positive [d]. *)
Definition ceil_div (n d : nat) : nat := (n + d - 1) / d.

(** [Math.ceil(items.length / size)].  With [size = 0] JavaScript yields
    [Infinity]: [slice(0, Infinity)] is the whole list and the loop index
    leaves the range after one round, which is what a chunk size of
    [items.length] does as well. *)
Definition chunkSizeOf (n size : nat) : nat :=
  if size =? 0 then n else ceil_div n size.

(** [items.slice(b, e)] for [b <= e]. *)
Definition slice {A} (items : list A) (b e : nat) : list A :=
  take (e - b) (drop b items).

(** The chunking loop
    [for (let i = 0; i < items.length; i += chunkSize) chunks.push(items.slice(i, i + chunkSize))].
    [None] when the loop has not left within [fuel] rounds. *)
Fixpoint chunk_loop {A} (fuel : nat) (items : list A) (chunkSize i : nat)
    (chunks : list (list A)) : option (list (list A)) :=
  if i <? length items then
    match fuel with
    | 0 => None
    | S fuel' =>
        chunk_loop fuel' items chunkSize (i + chunkSize)
                   (chunks ++ [slice items i (i + chunkSize)])
    end
  else Some chunks.

(** The [k]-th chunk a loop entered at index [i] pushes (used to state
    the loop's result in closed form). *)
Definition nth_chunk {A} (items : list A) (c i k : nat) : list A :=
  slice items (i + k * c) (i + (k + 1) * c).

Definition split_chunks {A} (items : list A) (size : nat) : option (list (list A)) :=
  chunk_loop (length items) items (chunkSizeOf (length items) size) 0 [].

Section Dispatch.
Context {TInput TResult : Type}.

(** A message a worker posts back: [{type: 'progress', filesProcessed}],
    [{type: 'result', data}], or anything else (legacy, taken as the
    result itself). *)
Inductive Message :=
| Progress (filesProcessed : Z)
| Result (data : TResult)
| Untyped (msg : TResult).

(** What [workers[i]] emits while a dispatch is in flight. *)
Inductive Event :=
| MessageFrom (i : nat) (msg : Message)
| ErrorFrom (i : nat) (err : string).

Inductive PromiseState :=
| Pending
| Fulfilled (value : TResult)
| Rejected (reason : Error).

(** The per-chunk promise with its two listeners: [handler] on
    ['message'] and the [once('error')] listener. *)
Record Slot := {
  promise : PromiseState;
  messageHandler : bool;
  errorListener : bool;
}.

Record Dispatch := {
  chunks : list (list TInput);
  posted : list (Worker * list TInput);
  workerProgress : list Z;
  slots : list Slot;
  firstRejection : option Error;
  notify : bool;
  onProgressCalls : list Z;
}.

(** The executor of the promise for chunk [i]: with [workers[i]]
    undefined, [worker.on] throws and the promise is rejected before any
    listener is attached or any message is posted. *)
Definition open_slot (pool : WorkerPool) (i : nat) : Slot :=
  match workers pool !! i with
  | Some _ => {| promise := Pending; messageHandler := true; errorListener := true |}
  | None => {| promise := Rejected TypeError; messageHandler := false; errorListener := false |}
  end.

Definition post (pool : WorkerPool) (ic : nat * list TInput) : list (Worker * list TInput) :=
  match workers pool !! ic.1 with
  | Some w => [(w, ic.2)]
  | None => []
  end.

Definition slot_rejection (s : Slot) : option Error :=
  match promise s with
  | Rejected e => Some e
  | _ => None
  end.

Fixpoint first_rejection (ss : list Slot) : option Error :=
  match ss with
  | [] => None
  | s :: ss' =>
      match slot_rejection s with
      | Some e => Some e
      | None => first_rejection ss'
      end
  end.

(** State of a dispatch right after [chunks.map(...)] has run. *)
Definition start (pool : WorkerPool) (cs : list (list TInput)) (onProgress : bool) : Dispatch :=
  let ss := map (open_slot pool) (seq 0 (length cs)) in
  {| chunks := cs;
     posted := concat (map (post pool) (imap pair cs));
     workerProgress := replicate (length cs) 0%Z;
     slots := ss;
     firstRejection := first_rejection ss;
     notify := onProgress;
     onProgressCalls := [] |}.

(** What [dispatch] hands back before any event: the already resolved
    [Promise.resolve([])], or a dispatch in flight. *)
Inductive Started :=
| Immediate (results : list TResult)
| InFlight (d : Dispatch).

Definition dispatch (pool : WorkerPool) (items : list TInput) (onProgress : bool)
    : option Started :=
  match items with
  | [] => Some (Immediate [])
  | _ =>
      match split_chunks items (size pool) with
      | Some cs => Some (InFlight (start pool cs onProgress))
      | None => None
      end
  end.

(** *** Events of a dispatch in flight *)

Definition with_slots (ss : list Slot) (d : Dispatch) : Dispatch :=
  {| chunks := chunks d; posted := posted d; workerProgress := workerProgress d;
     slots := ss; firstRejection := firstRejection d; notify := notify d;
     onProgressCalls := onProgressCalls d |}.

Definition with_progress (wp calls : list Z) (d : Dispatch) : Dispatch :=
  {| chunks := chunks d; posted := posted d; workerProgress := wp;
     slots := slots d; firstRejection := firstRejection d; notify := notify d;
     onProgressCalls := calls |}.

Definition with_rejection (r : option Error) (d : Dispatch) : Dispatch :=
  {| chunks := chunks d; posted := posted d; workerProgress := workerProgress d;
     slots := slots d; firstRejection := r; notify := notify d;
     onProgressCalls := onProgressCalls d |}.

(** [worker.removeListener('message', handler)] *)
Definition removeListener (s : Slot) : Slot :=
  {| promise := promise s; messageHandler := false; errorListener := errorListener s |}.

(** A [once] listener is detached when it fires. *)
Definition fire_once (s : Slot) : Slot :=
  {| promise := promise s; messageHandler := messageHandler s; errorListener := false |}.

(** [resolve(v)] and [reject(e)] act on a pending promise only. *)
Definition settle (p : PromiseState) (s : Slot) : Slot :=
  match promise s with
  | Pending => {| promise := p; messageHandler := messageHandler s;
                  errorListener := errorListener s |}
  | _ => s
  end.

Definition is_pending (s : Slot) : bool :=
  match promise s with
  | Pending => true
  | _ => false
  end.

Definition resolve (i : nat) (v : TResult) (d : Dispatch) : Dispatch :=
  with_slots (alter (settle (Fulfilled v)) i (slots d)) d.

(** [reject(e)]; [Promise.all] takes the reason of the promise that is
    rejected first. *)
Definition reject (i : nat) (e : Error) (d : Dispatch) : Dispatch :=
  match slots d !! i with
  | Some s =>
      if is_pending s then
        with_rejection (match firstRejection d with
                        | Some e0 => Some e0
                        | None => Some e
                        end)
                       (with_slots (alter (settle (Rejected e)) i (slots d)) d)
      else d
  | None => d
  end.

(** [workerProgress.reduce((a, b) => a + b, 0)] *)
Definition total (wp : list Z) : Z := foldl Z.add 0%Z wp.

(** The ['message'] handler of chunk [i]. *)
Definition handler (i : nat) (msg : Message) (d : Dispatch) : Dispatch :=
  match msg with
  | Progress filesProcessed =>
      let wp := <[i := filesProcessed]> (workerProgress d) in
      with_progress wp
        (if notify d then onProgressCalls d ++ [total wp] else onProgressCalls d) d
  | Result data =>
      resolve i data (with_slots (alter removeListener i (slots d)) d)
  | Untyped msg =>
      resolve i msg (with_slots (alter removeListener i (slots d)) d)
  end.

(** The [once('error')] listener of chunk [i]. *)
Definition on_error (i : nat) (err : string) (d : Dispatch) : Dispatch :=
  reject i (WorkerError err)
         (with_slots (alter removeListener i (alter fire_once i (slots d))) d).

(** Delivery of one event to the listeners this dispatch has attached. *)
Definition step (d : Dispatch) (ev : Event) : Dispatch :=
  match ev with
  | MessageFrom i msg =>
      match slots d !! i with
      | Some s => if messageHandler s then handler i msg d else d
      | None => d
      end
  | ErrorFrom i err =>
      match slots d !! i with
      | Some s => if errorListener s then on_error i err d else d
      | None => d
      end
  end.

Definition run (d : Dispatch) (trace : list Event) : Dispatch :=
  foldl step d trace.

(** *** [Promise.all(promises)] *)

Inductive Settled :=
| StillPending
| Resolved (results : list TResult)
| Failed (reason : Error).

Definition fulfilled (s : Slot) : option TResult :=
  match promise s with
  | Fulfilled v => Some v
  | _ => None
  end.

Definition outcome (d : Dispatch) : Settled :=
  match firstRejection d with
  | Some e => Failed e
  | None =>
      match mapM fulfilled (slots d) with
      | Some results => Resolved results
      | None => StillPending
      end
  end.

(** The promise returned by [dispatch], observed after [trace]. *)
Definition dispatch_after (pool : WorkerPool) (items : list TInput) (onProgress : bool)
    (trace : list Event) : option Settled :=
  match dispatch pool items onProgress with
  | Some (Immediate results) => Some (Resolved results)
  | Some (InFlight d) => Some (outcome (run d trace))
  | None => None
  end.

(** Every reported total is the sum of the counts held at that moment. *)
Definition calls_ok (d : Dispatch) : Prop :=
  if notify d
  then ∀ prev, last (onProgressCalls d) = Some prev → prev = total (workerProgress d)
  else onProgressCalls d = [].

(** *** One worker's view of a dispatch

    What the events of a trace mean for chunk [i] alone: its promise and
    the count it last reported.  A worker is heard until its promise is
    settled, by its first result (typed or legacy) or its first error. *)

Definition view_step (i : nat) (view : PromiseState * Z) (ev : Event)
    : PromiseState * Z :=
  match view.1, ev with
  | Pending, MessageFrom j (Progress filesProcessed) =>
      if j =? i then (Pending, filesProcessed) else view
  | Pending, MessageFrom j (Result data) =>
      if j =? i then (Fulfilled data, view.2) else view
  | Pending, MessageFrom j (Untyped msg) =>
      if j =? i then (Fulfilled msg, view.2) else view
  | Pending, ErrorFrom j err =>
      if j =? i then (Rejected (WorkerError err), view.2) else view
  | _, _ => view
  end.

Definition worker_view (i : nat) (trace : list Event) : PromiseState * Z :=
  foldl (view_step i) (Pending, 0%Z) trace.

(** The count worker [i] reported last while it was heard, [0] before
    its first report. *)
Definition latest_count (trace : list Event) (i : nat) : Z :=
  (worker_view i trace).2.

(** Every worker answers its chunk with [f chunk]. *)
Definition applies (f : list TInput → TResult) (items : list TInput) (size : nat)
    (trace : list Event) : Prop :=
  ∀ cs i chunk,
    split_chunks items size = Some cs →
    cs !! i = Some chunk →
    (worker_view i trace).1 = Fulfilled (f chunk).

(** *** Invariants of a dispatch in flight *)

(** The message handler stays attached exactly as long as the promise is
    pending, and the error listener at least that long. *)
Definition slot_ok (s : Slot) : Prop :=
  messageHandler s = is_pending s ∧ (is_pending s = true → errorListener s = true).

Definition wf (d : Dispatch) : Prop :=
  length (workerProgress d) = length (slots d)
  ∧ length (chunks d) = length (slots d)
  ∧ (∀ i s, slots d !! i = Some s → slot_ok s)
  ∧ (∀ e, firstRejection d = Some e →
       ∃ i s e', slots d !! i = Some s ∧ promise s = Rejected e').

End Dispatch.

Arguments Message : clear implicits.
Arguments Event : clear implicits.
Arguments PromiseState : clear implicits.
Arguments Slot : clear implicits.
Arguments Dispatch : clear implicits.
Arguments Started : clear implicits.
Arguments Settled : clear implicits.

End WorkerPool.

(** ** Knowledge-graph types *)

Module Graph.

Inductive NodeLabel :=
| Project | Package | Module_ | Folder | File | Class | Function | Method
| Variable_ | Interface | Enum | Decorator | Import_ | Type_ | CodeElement.

Record NodeProperties := {
  name : string;
  filePath : string;
  startLine : option Z;
  endLine : option Z;
  language : option string;
  isExported : option bool;
}.

(** The union of string literals [RelationshipType]. *)
Inductive RelationshipType :=
| CONTAINS
| CALLS
| INHERITS
| OVERRIDES
| IMPORTS
| USES
| DEFINES
| DECORATES
| IMPLEMENTS
| EXTENDS.


Record GraphNode := {
  node_id : string;
  label : NodeLabel;
  properties : NodeProperties;
}.

Record GraphRelationship := {
  id : string;
  sourceId : string;
  targetId : string;
  type : RelationshipType;
}.


End Graph.

(** ** Graph-RAG tools: [search] and [blastRadius] *)

Module Tools.

(** An awaited call: the value it resolves to, or the error it throws. *)
Inductive Outcome (A : Type) :=
| Returned (value : A)
| Thrown (error : string).
Arguments Returned {A} value.
Arguments Thrown {A} error.

Definition quote : string := String (ascii_of_nat 34) EmptyString.

(** [promise.catch(() => [])] *)
Definition catch_empty {A} (o : Outcome (list A)) : list A :=
  match o with
  | Returned rows => rows
  | Thrown _ => []
  end.

(** *** TOOL 1: search *)

Section Search.
Context {Hit : Type}.

(** The functions [createGraphRAGTools] binds the search tool to.  The
    two readiness probes are each read at most once per call. *)
Record SearchEnv := {
  hybridSearch : string → Z → Outcome (list Hit);
  semanticSearch : string → Z → Outcome (list Hit);
  isEmbeddingReady : bool;
  isBM25Ready : bool;
}.

(** What the tool returns: one of its fixed messages, or the listing
    [Found n matches: ...] rendered from [searchResults] (its first
    [min(searchResults.length, k)] rows, each with its 1-hop connections). *)
Inductive SearchOutput :=
| SearchText (message : string)
| SearchListing (searchResults : list Hit) (k : Z).

Definition search_unavailable : string :=
  "Search is not available. Please load a repository first.".

Definition no_code_found (query : string) : string :=
  "No code found matching " +:+ quote +:+ query +:+ quote
  +:+ ". Try different terms or use grep for exact patterns.".

(** Lines 61-116: the empty-result message or the listing. *)
Definition present (query : string) (k : Z) (searchResults : list Hit)
    : Outcome SearchOutput :=
  match searchResults with
  | [] => Returned (SearchText (no_code_found query))
  | _ => Returned (SearchListing searchResults k)
  end.

(** [await semanticSearch(query, k)] outside any [try]: a throw leaves
    the tool. *)
Definition semantic_only (env : SearchEnv) (query : string) (k : Z)
    : Outcome SearchOutput :=
  match semanticSearch env query k with
  | Returned rows => present query k rows
  | Thrown e => Thrown e
  end.

Definition searchTool (env : SearchEnv) (query : string) (limit : option Z)
    : Outcome SearchOutput :=
  let k := default 10%Z limit in
  if isBM25Ready env then
    match hybridSearch env query k with
    | Returned rows => present query k rows
    | Thrown _ =>
        if isEmbeddingReady env then semantic_only env query k
        else present query k []
    end
  else if isEmbeddingReady env then semantic_only env query k
  else Returned (SearchText search_unavailable).

End Search.

Arguments SearchEnv : clear implicits.
Arguments SearchOutput : clear implicits.

(** *** TOOL 6: blastRadius *)

Inductive Direction := upstream | downstream.

Definition direction_name (direction : Direction) : string :=
  match direction with
  | upstream => "upstream"
  | downstream => "downstream"
  end.

(** A row of a store answer: [id], [name], [nodeType], [filePath]. *)
Record Row := {
  id : string;
  name : string;
  nodeType : string;
  filePath : string;
}.

(** The Cypher texts the tool builds, by their parameters:
    [findTargetQuery] and the [d]-hop pattern [-[:CodeRelation*d]->]
    towards or away from the target. *)
Inductive Query :=
| FindTarget (target : string)
| Traverse (direction : Direction) (targetId : string) (d : nat).

(** A JavaScript string is falsy exactly when it is empty. *)
Definition truthy (s : string) : bool :=
  match s with
  | EmptyString => false
  | _ => true
  end.

Record Combined := {
  byDepth : gmap nat (list Row);
  allNodeIds : list string;
  seenIds : gset string;
}.

Definition nothing_seen : Combined :=
  {| byDepth := ∅; allNodeIds := []; seenIds := ∅ |}.

(** The body of the inner [results.forEach] at depth [d]. *)
Definition visit (d : nat) (acc : Combined) (row : Row) : Combined :=
  let nodeId := id row in
  if truthy nodeId && negb (bool_decide (nodeId ∈ seenIds acc)) then
    {| byDepth := <[d := default [] (byDepth acc !! d) ++ [row]]> (byDepth acc);
       allNodeIds := allNodeIds acc ++ [nodeId];
       seenIds := {[nodeId]} ∪ seenIds acc |}
  else acc.

(** [depthResults.forEach((results, idx) => ...)], entered at index [idx]. *)
Fixpoint combine_from (idx : nat) (depthResults : list (list Row)) (acc : Combined)
    : Combined :=
  match depthResults with
  | [] => acc
  | results :: rest => combine_from (S idx) rest (foldl (visit (idx + 1)) acc results)
  end.

Definition combine (depthResults : list (list Row)) : Combined :=
  combine_from 0 depthResults nothing_seen.

(** [Math.min(maxDepth ?? 3, 10)] *)
Definition clamp_depth (maxDepth : option Z) : Z :=
  Z.min (default 3%Z maxDepth) 10.

(** The depths [d] of [for (let d = 1; d <= Math.min(depth, 3); d++)]. *)
Definition depths (depth : Z) : list nat :=
  seq 1 (Z.to_nat (Z.min depth 3)).

(** One traversal query per depth. *)
Definition depthQueries (direction : Direction) (targetId : string) (depth : Z)
    : list Query :=
  map (Traverse direction targetId) (depths depth).

(** The tiered report, by the values it is rendered from. *)
Record Report := {
  report_target : string;
  report_direction : Direction;
  totalAffected : nat;
  tiers : gmap nat (list Row);
  marker : list string;
}.

Inductive BlastOutput :=
| BlastText (message : string)
| BlastReport (report : Report).

Definition error_finding (target error : string) : string :=
  "Error finding target " +:+ quote +:+ target +:+ quote +:+ ": " +:+ error.

Definition could_not_find (target : string) : string :=
  "Could not find " +:+ quote +:+ target +:+ quote
  +:+ " in the codebase. Try using the search tool first to find the exact name.".

Definition no_dependencies (direction : Direction) (target : string) : string :=
  "No " +:+ direction_name direction +:+ " dependencies found for "
  +:+ quote +:+ target +:+ quote +:+ ". This code appears to be "
  +:+ match direction with
      | upstream => "unused (not called by anything)"
      | downstream => "self-contained (no outgoing dependencies)"
      end
  +:+ ".".

(** Everything after the target row is chosen. *)
Definition analyze (executeQuery : Query → Outcome (list Row))
    (direction : Direction) (targetId : string) (depth : Z) : Combined :=
  combine (map (λ q, catch_empty (executeQuery q))
               (depthQueries direction targetId depth)).

Definition blastRadiusTool (executeQuery : Query → Outcome (list Row))
    (target : string) (direction : Direction) (maxDepth : option Z)
    : Outcome BlastOutput :=
  let depth := clamp_depth maxDepth in
  match executeQuery (FindTarget target) with
  | Thrown error => Returned (BlastText (error_finding target error))
  | Returned [] => Returned (BlastText (could_not_find target))
  | Returned (targetNode :: _) =>
      let found := analyze executeQuery direction (id targetNode) depth in
      let total := length (allNodeIds found) in
      if total =? 0 then Returned (BlastText (no_dependencies direction target))
      else Returned (BlastReport
             {| report_target := target;
                report_direction := direction;
                totalAffected := total;
                tiers := byDepth found;
                marker := allNodeIds found |})
  end.

(** *** The rows collected, in the order they were collected

    [placed] lists every collected row with the depth it was collected
    at; the three accumulators of the tool are projections of it. *)

Definition tier_of (placed : list (nat * Row)) (d : nat) : option (list Row) :=
  match filter (λ p, p.1 = d) placed with
  | [] => None
  | kept => Some (kept.*2)
  end.

Definition ids_of (placed : list (nat * Row)) : list string :=
  (λ p, id p.2) <$> placed.

Definition collected (placed : list (nat * Row)) (acc : Combined) : Prop :=
  allNodeIds acc = ids_of placed
  ∧ seenIds acc = list_to_set (ids_of placed)
  ∧ (∀ d, byDepth acc !! d = tier_of placed d)
  ∧ NoDup (ids_of placed).

End Tools.

(** ** Repository walker *)

Module Walker.
Import Tools.

Record FileEntry := {
  path : string;
  content : string;
}.

Definition READ_CONCURRENCY : nat := 32.

(** [relativePath.replace(/\\/g, '/')] *)
Fixpoint forward_slashes (s : string) : string :=
  match s with
  | EmptyString => EmptyString
  | String c rest =>
      String (if Ascii.eqb c (ascii_of_nat 92) then ascii_of_nat 47 else c)
             (forward_slashes rest)
  end.

(** What the walk has built so far: [entries], [processed] and the calls
    of [onProgress], each [(current, total, filePath)]. *)
Record Walk := {
  entries : list FileEntry;
  processed : nat;
  progress : list (nat * nat * string);
}.

Definition nothing_walked : Walk :=
  {| entries := []; processed := 0; progress := [] |}.

Section Walk.
(** [shouldIgnorePath] of the ignore service and [fs.readFile] of
    [path.join(repoPath, relativePath)] as ['utf-8']. *)
Variable shouldIgnorePath : string → bool.
Variable readFile : string → string → Outcome string.
Variable repoPath : string.
Variable onProgress : bool.

(** One promise of the batch, as [Promise.allSettled] reports it. *)
Definition settled_read (relativePath : string) : Outcome FileEntry :=
  match readFile repoPath relativePath with
  | Returned text => Returned {| path := forward_slashes relativePath; content := text |}
  | Thrown reason => Thrown reason
  end.

(** The body of [for (const result of results)]; [result.1] is
    [batch[results.indexOf(result)]]. *)
Definition record_result (total : nat) (w : Walk) (result : string * Outcome FileEntry)
    : Walk :=
  let processed := S (processed w) in
  match result.2 with
  | Returned value =>
      {| entries := entries w ++ [value];
         processed := processed;
         progress := if onProgress
                     then progress w ++ [(processed, total, path value)]
                     else progress w |}
  | Thrown _ =>
      {| entries := entries w;
         processed := processed;
         progress := if onProgress
                     then progress w ++ [(processed, total, result.1)]
                     else progress w |}
  end.

(** The same for one file on its own. *)
Definition record_one (total : nat) (w : Walk) (relativePath : string) : Walk :=
  record_result total w (relativePath, settled_read relativePath).

Definition read_batch (total : nat) (w : Walk) (batch : list string) : Walk :=
  foldl (record_result total) w (zip batch (map settled_read batch)).

(** [for (let start = 0; start < filtered.length; start += READ_CONCURRENCY)];
    [None] when the loop has not left within [fuel] rounds. *)
Fixpoint walk_loop (fuel : nat) (filtered : list string) (start : nat) (w : Walk)
    : option Walk :=
  if start <? length filtered then
    match fuel with
    | 0 => None
    | S fuel' =>
        let batch := WorkerPool.slice filtered start (start + READ_CONCURRENCY) in
        walk_loop fuel' filtered (start + READ_CONCURRENCY)
                  (read_batch (length filtered) w batch)
    end
  else Some w.

(** [walkRepository], from the list [glob] has resolved to. *)
Definition walkRepository (files : list string) : option Walk :=
  let filtered := filter (λ file, shouldIgnorePath file = false) files in
  walk_loop (length filtered) filtered 0 nothing_walked.

(** What one file contributes, read on its own. *)
Definition entry_of (relativePath : string) : option FileEntry :=
  match readFile repoPath relativePath with
  | Returned text => Some {| path := forward_slashes relativePath; content := text |}
  | Thrown _ => None
  end.

Definition reported_path (relativePath : string) : string :=
  match readFile repoPath relativePath with
  | Returned _ => forward_slashes relativePath
  | Thrown _ => relativePath
  end.

End Walk.

End Walker.

(** ** Graph-RAG tools: [grep] and [read] *)

Module FileTools.
Import Tools.

(** [fileContents: Map<string, string>], in insertion order. *)
Fixpoint get (fileContents : list (string * string)) (key : string) : option string :=
  match fileContents with
  | [] => None
  | (k, text) :: rest => if String.eqb k key then Some text else get rest key
  end.

Definition keys (fileContents : list (string * string)) : list string :=
  fileContents.*1.

Definition newline : ascii := ascii_of_nat 10.
Definition slash : ascii := ascii_of_nat 47.

(** [s.split(sep)] for a one-character separator: never empty. *)
Fixpoint split_on (sep : ascii) (s : string) : list string :=
  match s with
  | EmptyString => [EmptyString]
  | String c rest =>
      if Ascii.eqb c sep then EmptyString :: split_on sep rest
      else match split_on sep rest with
           | [] => [String c EmptyString]
           | segment :: segments => String c segment :: segments
           end
  end.

(** [s.includes(part)] *)
Fixpoint includes (s part : string) : bool :=
  String.prefix part s
  || match s with
     | EmptyString => false
     | String _ rest => includes rest part
     end.

(** [s.endsWith(suffix)] *)
Definition endsWith (s suffix : string) : bool :=
  (String.length suffix <=? String.length s)
  && String.eqb (String.substring (String.length s - String.length suffix)
                                  (String.length suffix) s) suffix.

(** [parts.join(sep)] *)
Fixpoint join (sep : string) (parts : list string) : string :=
  match parts with
  | [] => EmptyString
  | [part] => part
  | part :: rest => part +:+ sep +:+ join sep rest
  end.

Definition nl : string := String newline EmptyString.

(** *** TOOL 3: grep *)

Record Match := {
  file : string;
  line : nat;
  content : string;
}.

Section Grep.
(** The built-ins [String.prototype.toLowerCase] and [trim], and the
    constructor [new RegExp(pattern, flags)], which throws on a malformed
    pattern and otherwise yields [regex.test] as run with [lastIndex = 0]. *)
Variable toLowerCase : string → string.
Variable trim : string → string.
Variable RegExp : string → string → Outcome (string → bool).

(** [fileFilter && !filePath.toLowerCase().includes(fileFilter.toLowerCase())]
    negated: is the file searched? *)
Definition searched (fileFilter : option string) (filePath : string) : bool :=
  match fileFilter with
  | Some wanted =>
      if truthy wanted then includes (toLowerCase filePath) (toLowerCase wanted) else true
  | None => true
  end.

Definition found (filePath : string) (i : nat) (text : string) : Match :=
  {| file := filePath; line := i + 1; content := String.substring 0 150 (trim text) |}.

(** [results.length >= limit] *)
Definition full (limit : Z) (results : list Match) : bool :=
  (limit <=? Z.of_nat (length results))%Z.

(** The inner loop over [lines], entered at index [i]. *)
Fixpoint scan_lines (test : string → bool) (filePath : string) (limit : Z) (i : nat)
    (lines : list string) (results : list Match) : list Match :=
  match lines with
  | [] => results
  | text :: rest =>
      if test text then
        let results := results ++ [found filePath i text] in
        if full limit results then results
        else scan_lines test filePath limit (S i) rest results
      else scan_lines test filePath limit (S i) rest results
  end.

(** The outer loop over [fileContents.entries()]. *)
Fixpoint scan_files (test : string → bool) (fileFilter : option string) (limit : Z)
    (fileContents : list (string * string)) (results : list Match) : list Match :=
  match fileContents with
  | [] => results
  | (filePath, text) :: rest =>
      if searched fileFilter filePath then
        let results := scan_lines test filePath limit 0 (split_on newline text) results in
        if full limit results then results
        else scan_files test fileFilter limit rest results
      else scan_files test fileFilter limit rest results
  end.

Definition show_match (r : Match) : string :=
  file r +:+ ":" +:+ pretty (line r) +:+ ": " +:+ content r.

(** Everything after the loops. *)
Definition report_matches (pattern : string) (fileFilter : option string) (limit : Z)
    (results : list Match) : string :=
  match results with
  | [] =>
      "No matches for " +:+ quote +:+ pattern +:+ quote
      +:+ match fileFilter with
          | Some wanted =>
              if truthy wanted
              then " in files matching " +:+ quote +:+ wanted +:+ quote
              else EmptyString
          | None => EmptyString
          end
  | _ =>
      "Found " +:+ pretty (length results) +:+ " matches:" +:+ nl +:+ nl
      +:+ join nl (show_match <$> results)
      +:+ (if full limit results
           then nl +:+ nl +:+ "(Showing first " +:+ pretty limit +:+ " results)"
           else EmptyString)
  end.

Definition grepTool (fileContents : list (string * string)) (pattern : string)
    (fileFilter : option string) (caseSensitive : option bool) (maxResults : option Z)
    : Outcome string :=
  let flags := if default false caseSensitive then "g" else "gi" in
  match RegExp pattern flags with
  | Thrown message =>
      Returned ("Invalid regex: " +:+ pattern +:+ ". Error: " +:+ message)
  | Returned test =>
      let limit := default 100%Z maxResults in
      Returned (report_matches pattern fileFilter limit
                  (scan_files test fileFilter limit fileContents []))
  end.

(** Every matching line of a file, from index [i] on. *)
Fixpoint matches_in (test : string → bool) (filePath : string) (i : nat)
    (lines : list string) : list Match :=
  match lines with
  | [] => []
  | text :: rest =>
      (if test text then [found filePath i text] else [])
      ++ matches_in test filePath (S i) rest
  end.

(** Every matching line of every searched file, in file order. *)
Definition all_matches (test : string → bool) (fileFilter : option string)
    (fileContents : list (string * string)) : list Match :=
  concat (map (λ entry, if searched fileFilter entry.1
                        then matches_in test entry.1 0 (split_on newline entry.2)
                        else [])
              fileContents).

End Grep.

(** *** TOOL 4: read *)

Record Candidate := {
  path : string;
  score : Z;
}.

Section Read.
Variable toLowerCase : string → string.

(** [pathSegments.findIndex((s, i) => i > lastMatchIdx && s.includes(seg))],
    [-1] when no segment qualifies. *)
Fixpoint findIndex (lastMatchIdx : Z) (seg : string) (i : nat) (pathSegments : list string)
    : Z :=
  match pathSegments with
  | [] => (-1)%Z
  | s :: rest =>
      if (lastMatchIdx <? Z.of_nat i)%Z && includes s seg then Z.of_nat i
      else findIndex lastMatchIdx seg (S i) rest
  end.

(** The loop over [requestSegments], on [(matchScore, lastMatchIdx)]. *)
Definition match_segment (pathSegments : list string) (state : Z * Z) (seg : string)
    : Z * Z :=
  let idx := findIndex state.2 seg 0 pathSegments in
  if (state.2 <? idx)%Z then ((state.1 + 10)%Z, idx) else state.

(** The score of one path, if it becomes a candidate. *)
Definition candidate_score (normalizedRequest file : string) : option Z :=
  let normalizedPath := toLowerCase file in
  if String.eqb normalizedPath normalizedRequest then Some 1000%Z
  else if endsWith normalizedPath normalizedRequest
  then Some (100 + (200 - Z.of_nat (String.length file)))%Z
  else
    let requestSegments := List.filter truthy (split_on slash normalizedRequest) in
    let pathSegments := split_on slash normalizedPath in
    let matchScore := (foldl (match_segment pathSegments) (0, -1)%Z requestSegments).1 in
    if (Z.of_nat (length requestSegments) * 5 <=? matchScore)%Z
    then Some matchScore else None.

Definition candidates_of (normalizedRequest : string) (fileContents : list (string * string))
    : list Candidate :=
  omap (λ entry, (λ s, {| path := entry.1; score := s |})
                   <$> candidate_score normalizedRequest entry.1)
       fileContents.

(** [candidates.sort((a, b) => b.score - a.score)]: stable, by falling
    score. *)
Fixpoint insert_desc (c : Candidate) (sorted : list Candidate) : list Candidate :=
  match sorted with
  | [] => [c]
  | x :: rest =>
      if (score x <? score c)%Z then c :: x :: rest else x :: insert_desc c rest
  end.

Definition sort_desc (candidates : list Candidate) : list Candidate :=
  foldl (λ sorted c, insert_desc c sorted) [] candidates.

(** The first element of a sorted list is one of highest score. *)
Definition head_is_best (sorted : list Candidate) : Prop :=
  match sorted with
  | [] => True
  | best :: _ => ∀ x, x ∈ sorted → (score x ≤ score best)%Z
  end.

(** A string read as a condition: [undefined] and the empty string fail. *)
Definition present_text (found : option string) : option string :=
  match found with
  | Some text => if truthy text then Some text else None
  | None => None
  end.

(** The file the tool settles on: [(actualPath, content)]. *)
Definition read_choice (fileContents : list (string * string)) (filePath : string)
    : option (string * string) :=
  let normalizedRequest := toLowerCase (Walker.forward_slashes filePath) in
  match present_text (get fileContents filePath) with
  | Some text => Some (filePath, text)
  | None =>
      match sort_desc (candidates_of normalizedRequest fileContents) with
      | best :: _ => pair (path best) <$> present_text (get fileContents (path best))
      | [] => None
      end
  end.

Definition MAX_CONTENT : nat := Z.to_nat 50000.

Definition show_file (actualPath text : string) : string :=
  let lines := length (split_on newline text) in
  if MAX_CONTENT <? String.length text then
    "File: " +:+ actualPath +:+ " (" +:+ pretty lines +:+ " lines, truncated)"
    +:+ nl +:+ nl +:+ String.substring 0 MAX_CONTENT text
    +:+ nl +:+ nl +:+ "... [truncated]"
  else
    "File: " +:+ actualPath +:+ " (" +:+ pretty lines +:+ " lines)"
    +:+ nl +:+ nl +:+ text.

(** [Array.from(fileContents.keys()).filter(...).slice(0, 5)] *)
Definition similar_to (fileContents : list (string * string)) (filePath : string)
    : list string :=
  let fileName := toLowerCase (default EmptyString (last (split_on slash filePath))) in
  take 5 (List.filter (λ p, includes (toLowerCase p) fileName) (keys fileContents)).

Definition not_found (filePath : string) (similar : list string) : string :=
  match similar with
  | [] => "File not found: " +:+ quote +:+ filePath +:+ quote
  | _ =>
      "File not found: " +:+ quote +:+ filePath +:+ quote +:+ nl +:+ nl
      +:+ "Did you mean:" +:+ nl +:+ join nl ((λ f, "  - " +:+ f) <$> similar)
  end.

Definition readTool (fileContents : list (string * string)) (filePath : string) : string :=
  match read_choice fileContents filePath with
  | Some (actualPath, text) => show_file actualPath text
  | None => not_found filePath (similar_to fileContents filePath)
  end.

End Read.

End FileTools.

(** ** Daemon client *)

Module Daemon.

Inductive ReadyState := CONNECTING | OPEN | CLOSING | CLOSED.

Section Client.
Context {Value Context : Type}.

(** A parsed [BridgeMessage]; [error] holds [error.message]. *)
Record BridgeMessage := {
  id : string;
  method : option string;
  params : option Value;
  result : option Value;
  error : option string;
  type : option string;
  context : option Context;
}.

(** How the promise of a [callTool] ends. *)
Inductive Settlement :=
| Resolve (value : option Value)
| Reject (message : string).

(** The client: [ws] with its [readyState], [pendingRequests] in
    insertion order (each id with the number of the call that waits on
    it), [requestId] and [_context]; then what it has done: the requests
    sent, the calls settled, the calls refused, the contexts notified. *)
Record DaemonClient := {
  ws : option ReadyState;
  pendingRequests : list (string * nat);
  requestId : nat;
  _context : option Context;
  sent : list (string * string * Value);
  settled : list (nat * Settlement);
  refused : list string;
  notified : list (option Context);
}.

Definition new_client : DaemonClient :=
  {| ws := None; pendingRequests := []; requestId := 0; _context := None;
     sent := []; settled := []; refused := []; notified := [] |}.

(** What happens to a client: its own methods, the events of the socket
    [ws] was last set to ([data] is [None] when [JSON.parse] throws), and
    the timer of a request. *)
Inductive Event :=
| Connect
| OnOpen
| OnMessage (data : option BridgeMessage)
| OnClose
| CallTool (method : string) (params : Value)
| OnTimeout (id : string)
| Disconnect.

(** [`req_${n}`] *)
Definition request_id (n : nat) : string := "req_" +:+ pretty n.

(** [this.ws !== null && this.ws.readyState === WebSocket.OPEN] *)
Definition isConnected (c : DaemonClient) : bool :=
  match ws c with
  | Some OPEN => true
  | _ => false
  end.

(** [pendingRequests.get(id)] *)
Fixpoint waiting (pending : list (string * nat)) (key : string) : option nat :=
  match pending with
  | [] => None
  | (k, n) :: rest => if String.eqb k key then Some n else waiting rest key
  end.

(** [pendingRequests.delete(id)] *)
Definition delete (key : string) (pending : list (string * nat)) : list (string * nat) :=
  List.filter (λ entry, negb (String.eqb entry.1 key)) pending.

(** [pendingRequests.set(id, ...)]: a known key keeps its place. *)
Fixpoint set (key : string) (n : nat) (pending : list (string * nat))
    : list (string * nat) :=
  match pending with
  | [] => [(key, n)]
  | (k, m) :: rest => if String.eqb k key then (k, n) :: rest else (k, m) :: set key n rest
  end.

Definition truthy (s : string) : bool :=
  match s with
  | EmptyString => false
  | _ => true
  end.

Definition handleMessage (msg : BridgeMessage) (c : DaemonClient) : DaemonClient :=
  match (if bool_decide (type msg = Some "context_update") then context msg else None) with
  | Some update =>
      {| ws := ws c; pendingRequests := pendingRequests c; requestId := requestId c;
         _context := Some update;
         sent := sent c; settled := settled c; refused := refused c;
         notified := notified c ++ [Some update] |}
  | None =>
      match (if truthy (id msg) then waiting (pendingRequests c) (id msg) else None) with
      | Some n =>
          {| ws := ws c; pendingRequests := delete (id msg) (pendingRequests c);
             requestId := requestId c; _context := _context c;
             sent := sent c;
             settled := settled c
                        ++ [(n, match error msg with
                                | Some message => Reject message
                                | None => Resolve (result msg)
                                end)];
             refused := refused c; notified := notified c |}
      | None => c
      end
  end.

Definition step (c : DaemonClient) (ev : Event) : DaemonClient :=
  match ev with
  | Connect =>
      {| ws := Some CONNECTING; pendingRequests := pendingRequests c;
         requestId := requestId c; _context := _context c;
         sent := sent c; settled := settled c; refused := refused c;
         notified := notified c |}
  | OnOpen =>
      {| ws := match ws c with Some _ => Some OPEN | None => None end;
         pendingRequests := pendingRequests c;
         requestId := requestId c; _context := _context c;
         sent := sent c; settled := settled c; refused := refused c;
         notified := notified c |}
  | OnMessage (Some msg) => handleMessage msg c
  | OnMessage None => c
  | OnClose =>
      {| ws := None; pendingRequests := []; requestId := requestId c; _context := None;
         sent := sent c;
         settled := settled c
                    ++ map (λ entry, (entry.2, Reject "Connection closed"))
                           (pendingRequests c);
         refused := refused c; notified := notified c |}
  | CallTool method params =>
      if isConnected c then
        let n := S (requestId c) in
        {| ws := ws c; pendingRequests := set (request_id n) n (pendingRequests c);
           requestId := n; _context := _context c;
           sent := sent c ++ [(request_id n, method, params)];
           settled := settled c; refused := refused c; notified := notified c |}
      else
        {| ws := ws c; pendingRequests := pendingRequests c; requestId := requestId c;
           _context := _context c; sent := sent c; settled := settled c;
           refused := refused c ++ ["Not connected to daemon"];
           notified := notified c |}
  | OnTimeout key =>
      match waiting (pendingRequests c) key with
      | Some n =>
          {| ws := ws c; pendingRequests := delete key (pendingRequests c);
             requestId := requestId c; _context := _context c;
             sent := sent c;
             settled := settled c ++ [(n, Reject "Request timeout")];
             refused := refused c; notified := notified c |}
      | None => c
      end
  | Disconnect =>
      {| ws := None; pendingRequests := pendingRequests c; requestId := requestId c;
         _context := _context c; sent := sent c; settled := settled c;
         refused := refused c; notified := notified c |}
  end.

Definition run (trace : list Event) : DaemonClient := foldl step new_client trace.

(** Every call made so far is either waiting under its own id or
    settled, never both and never twice. *)
Definition tidy (c : DaemonClient) : Prop :=
  (∀ key n, (key, n) ∈ pendingRequests c → key = request_id n ∧ 1 ≤ n ≤ requestId c)
  ∧ NoDup (pendingRequests c).*2
  ∧ (∀ n, n ∈ (settled c).*1 → 1 ≤ n ≤ requestId c ∧ n ∉ (pendingRequests c).*2)
  ∧ NoDup (settled c).*1
  ∧ (∀ n, 1 ≤ n ≤ requestId c → n ∈ (pendingRequests c).*2 ∨ n ∈ (settled c).*1).

End Client.

Arguments BridgeMessage : clear implicits.
Arguments Settlement : clear implicits.
Arguments DaemonClient : clear implicits.
Arguments Event : clear implicits.

End Daemon.

(** ** Properties of the worker pool *)

Module WorkerPoolFacts.
Import WorkerPool.

(** *** Arithmetic of the chunk size *)

Lemma ceil_div_upper n d : 1 ≤ d → n ≤ ceil_div n d * d.
Proof.
  intros Hd. unfold ceil_div.
  pose proof (Nat.div_mod_eq (n + d - 1) d) as E.
  pose proof (Nat.mod_upper_bound (n + d - 1) d) as B.
  nia.
Qed.

Lemma ceil_div_lower n d : 1 ≤ d → 1 ≤ n → (ceil_div n d - 1) * d < n.
Proof.
  intros Hd Hn. unfold ceil_div.
  pose proof (Nat.div_mod_eq (n + d - 1) d) as E.
  nia.
Qed.

Lemma ceil_div_pos n d : 1 ≤ d → 1 ≤ n → 1 ≤ ceil_div n d.
Proof.
  intros Hd Hn. pose proof (ceil_div_upper n d Hd). nia.
Qed.

Lemma ceil_div_zero d : 1 ≤ d → ceil_div 0 d = 0.
Proof.
  intros Hd. unfold ceil_div. apply Nat.div_small. lia.
Qed.

Lemma ceil_div_step m c : 1 ≤ c → 1 ≤ m → ceil_div m c = S (ceil_div (m - c) c).
Proof.
  intros Hc Hm. unfold ceil_div.
  destruct (le_lt_dec c m) as [Hle|Hlt].
  - replace (m + c - 1) with ((m - c + c - 1) + 1 * c) by lia.
    rewrite Nat.div_add by lia. lia.
  - replace (m - c) with 0 by lia.
    replace (0 + c - 1) with (c - 1) by lia.
    rewrite (Nat.div_small (c - 1) c) by lia.
    replace (m + c - 1) with ((m - 1) + 1 * c) by lia.
    rewrite Nat.div_add by lia.
    rewrite (Nat.div_small (m - 1) c) by lia. done.
Qed.

(** [ceil(N / ceil(N / P))] never exceeds [P]. *)
Lemma chunk_count_le n p : 1 ≤ p → 1 ≤ n → ceil_div n (ceil_div n p) ≤ p.
Proof.
  intros Hp Hn.
  pose proof (ceil_div_pos n p Hp Hn) as Hc.
  pose proof (ceil_div_upper n p Hp) as Hu.
  pose proof (ceil_div_lower n (ceil_div n p) Hc Hn) as Hl.
  nia.
Qed.

Lemma chunkSizeOf_pos n size : 1 ≤ n → 1 ≤ chunkSizeOf n size.
Proof.
  intros Hn. unfold chunkSizeOf.
  destruct (Nat.eqb_spec size 0) as [->|Hs]; [done|].
  apply ceil_div_pos; lia.
Qed.

(** *** The chunking loop in closed form *)

Lemma slice_length {A} (items : list A) b e :
  length (slice items b e) = Nat.min (e - b) (length items - b).
Proof. unfold slice. rewrite length_take, length_drop. done. Qed.

Lemma chunk_loop_closed {A} (items : list A) c :
  1 ≤ c →
  ∀ fuel i chunks,
    length items - i ≤ fuel →
    ∃ tail,
      chunk_loop fuel items c i chunks = Some (chunks ++ tail)
      ∧ tail = map (nth_chunk items c i) (seq 0 (ceil_div (length items - i) c))
      ∧ concat tail = drop i items.
Proof.
  intros Hc. induction fuel as [|fuel IH]; intros i chunks Hfuel; simpl.
  - destruct (Nat.ltb_spec i (length items)) as [Hlt|Hge]; [lia|].
    exists []. rewrite app_nil_r.
    replace (length items - i) with 0 by lia.
    rewrite ceil_div_zero by done. simpl.
    rewrite drop_ge by lia. done.
  - destruct (Nat.ltb_spec i (length items)) as [Hlt|Hge].
    + destruct (IH (i + c) (chunks ++ [slice items i (i + c)])) as (tail & Hrun & Htail & Hcat);
        [lia|].
      exists (slice items i (i + c) :: tail). split; [|split].
      * rewrite Hrun, <- app_assoc. done.
      * rewrite (ceil_div_step (length items - i) c) by lia.
        simpl. f_equal.
        { unfold nth_chunk. f_equal; lia. }
        rewrite Htail, <- fmap_S_seq, <- list_fmap_compose.
        replace (length items - i - c) with (length items - (i + c)) by lia.
        apply list_fmap_ext. intros _ k _. simpl.
        unfold nth_chunk. f_equal; lia.
      * simpl. rewrite Hcat. unfold slice.
        replace (i + c - i) with c by lia.
        rewrite <- (take_drop c (drop i items)) at 2.
        rewrite drop_drop. done.
    + exists []. rewrite app_nil_r.
      replace (length items - i) with 0 by lia.
      rewrite ceil_div_zero by done. simpl.
      rewrite drop_ge by lia. done.
Qed.

Lemma split_chunks_closed {A} (items : list A) size :
  items ≠ [] →
  let c := chunkSizeOf (length items) size in
  split_chunks items size
  = Some (map (nth_chunk items c 0) (seq 0 (ceil_div (length items) c)))
  ∧ concat (map (nth_chunk items c 0) (seq 0 (ceil_div (length items) c))) = items.
Proof.
  intros Hne c.
  assert (1 ≤ length items) as Hn by (destruct items; [done|simpl; lia]).
  destruct (chunk_loop_closed items c (chunkSizeOf_pos _ size Hn) (length items) 0 [])
    as (tail & Hrun & Htail & Hcat); [lia|].
  rewrite Nat.sub_0_r in Htail. subst tail.
  split; [exact Hrun | exact Hcat].
Qed.

Lemma split_chunks_total {A} (items : list A) size : is_Some (split_chunks items size).
Proof.
  destruct items as [|x items].
  - by eexists.
  - destruct (split_chunks_closed (x :: items) size) as [-> _]; [done|]. by eexists.
Qed.

(** The chunking loop always leaves: [dispatch] returns. *)
Lemma dispatch_total {TInput TResult : Type} pool (items : list TInput) onProgress :
  is_Some (dispatch (TResult:=TResult) pool items onProgress).
Proof.
  unfold dispatch. destruct items as [|x items]; [by eexists|].
  destruct (split_chunks_total (x :: items) (size pool)) as [cs ->]. by eexists.
Qed.

Lemma nth_chunk_length {A} (items : list A) c k :
  1 ≤ c →
  k < ceil_div (length items) c →
  1 ≤ length (nth_chunk items c 0 k) ≤ c
  ∧ (S k < ceil_div (length items) c → length (nth_chunk items c 0 k) = c).
Proof.
  intros Hc Hk. unfold nth_chunk. rewrite slice_length.
  assert (1 ≤ length items) as Hn.
  { destruct (length items); [rewrite ceil_div_zero in Hk by done; lia | lia]. }
  pose proof (ceil_div_lower (length items) c Hc Hn) as Hl.
  assert (k * c ≤ (ceil_div (length items) c - 1) * c) as Hkc
    by (apply Nat.mul_le_mono_r; lia).
  replace (0 + (k + 1) * c - (0 + k * c)) with c by nia.
  replace (0 + k * c) with (k * c) by done.
  split; [lia|].
  intros Hk'.
  assert ((k + 1) * c ≤ (ceil_div (length items) c - 1) * c)
    by (apply Nat.mul_le_mono_r; lia).
  lia.
Qed.

(** *** Who receives which chunk *)

Lemma post_live {TInput} cpus poolSize (j : nat) (cs : list (list TInput)) :
  j + length cs ≤ size (createWorkerPool cpus poolSize) →
  concat (map (post (createWorkerPool cpus poolSize)) (imap (λ i, pair (j + i)) cs))
  = imap (λ i, pair (j + i)) cs.
Proof.
  revert j. induction cs as [|ch cs IH]; intros j Hj; [done|].
  simpl in *. unfold post at 1. simpl.
  rewrite lookup_seq_lt by lia. simpl. f_equal.
  rewrite (imap_ext _ (λ i, pair (S j + i))) by (intros; simpl; f_equal; lia).
  apply IH. lia.
Qed.

(** C1 as stated fails: five items on a pool of four workers are cut into
    three chunks, and the fourth worker receives nothing. *)
Lemma five_items_four_workers :
  ∃ d : Dispatch nat unit,
    dispatch (createWorkerPool 8 (Some 4)) [1; 2; 3; 4; 5] false = Some (InFlight d)
    ∧ chunks d = [[1; 2]; [3; 4]; [5]]
    ∧ length (chunks d) ≠ 4
    ∧ posted d = [(0, [1; 2]); (1, [3; 4]); (2, [5])].
Proof.
  eexists. split; [reflexivity|]. simpl. repeat split. lia.
Qed.

(** C1 (amended): for a non-empty input of [N] items and a pool of
    [P >= 1] workers, [dispatch] cuts the input into
    [ceil(N / ceil(N / P))] contiguous chunks, at least one and at most
    [P]; every chunk but the last has [ceil(N / P)] items, the last has
    between one and [ceil(N / P)]; chunk [i] is posted to worker [i], so
    each worker receives at most one chunk. *)
Theorem dispatch_partition {TInput TResult : Type} cpus poolSize
    (items : list TInput) (onProgress : bool) :
  let pool := createWorkerPool cpus poolSize in
  let c := ceil_div (length items) (size pool) in
  items ≠ [] →
  1 ≤ size pool →
  ∃ d : Dispatch TInput TResult,
    dispatch pool items onProgress = Some (InFlight d)
    ∧ concat (chunks d) = items
    ∧ length (chunks d) = ceil_div (length items) c
    ∧ 1 ≤ length (chunks d) ≤ size pool
    ∧ (∀ k ch, chunks d !! k = Some ch →
         1 ≤ length ch ≤ c ∧ (S k < length (chunks d) → length ch = c))
    ∧ posted d = imap pair (chunks d).
Proof.
  intros pool c Hne HP.
  assert (1 ≤ length items) as Hn by (destruct items; [done|simpl; lia]).
  assert (chunkSizeOf (length items) (size pool) = c) as Hcs.
  { unfold chunkSizeOf. destruct (Nat.eqb_spec (size pool) 0); [lia|done]. }
  assert (1 ≤ c) as Hc by (apply ceil_div_pos; lia).
  destruct (split_chunks_closed items (size pool) Hne) as [Hsplit Hcat].
  rewrite Hcs in Hsplit, Hcat.
  set (cs := map (nth_chunk items c 0) (seq 0 (ceil_div (length items) c))) in *.
  assert (length cs = ceil_div (length items) c) as Hlen.
  { unfold cs. rewrite length_map, length_seq. done. }
  exists (start pool cs onProgress).
  split; [|split; [|split; [|split; [|split]]]].
  - unfold dispatch. destruct items; [done|]. rewrite Hsplit. done.
  - exact Hcat.
  - exact Hlen.
  - change (chunks (start pool cs onProgress)) with cs. rewrite Hlen. split.
    + apply ceil_div_pos; lia.
    + apply chunk_count_le; lia.
  - change (chunks (start pool cs onProgress)) with cs. intros k ch Hk. rewrite Hlen.
    unfold cs in Hk. rewrite list_lookup_fmap in Hk.
    destruct (seq 0 (ceil_div (length items) c) !! k) as [k'|] eqn:Hseq; [|done].
    apply lookup_seq in Hseq as [-> Hlt]. simpl in Hk.
    injection Hk as <-. apply nth_chunk_length; done.
  - change (posted (start pool cs onProgress))
      with (concat (map (post pool) (imap pair cs))).
    apply (post_live cpus poolSize 0 cs).
    fold pool. rewrite Hlen. apply chunk_count_le; lia.
Qed.

Lemma dispatch_partition_witness :
  ∃ d : Dispatch nat unit,
    dispatch (createWorkerPool 8 (Some 4)) [1; 2; 3; 4; 5] false = Some (InFlight d)
    ∧ length (chunks d) = 3.
Proof.
  destruct (dispatch_partition (TResult:=unit) 8 (Some 4) [1; 2; 3; 4; 5] false)
    as (d & Hd & _ & Hlen & _); [done | simpl; lia |].
  exists d. split; [exact Hd | exact Hlen].
Defined.

(** *** Events and invariants *)

Section Events.
Context {TInput TResult : Type}.
Implicit Types (d : Dispatch TInput TResult) (s : Slot TResult).
Implicit Types (ev : Event TResult) (trace : list (Event TResult)).

Ltac lookups :=
  repeat first
    [ rewrite list_lookup_alter_eq
    | rewrite list_lookup_alter_ne by done
    | rewrite list_lookup_insert_eq by lia
    | rewrite list_lookup_insert_ne by done ].

Ltac seen :=
  eexists; split; [first [reflexivity | eassumption]|]; simpl; split; done.

Lemma first_rejection_Some (ss : list (Slot TResult)) e :
  first_rejection ss = Some e →
  ∃ i s e', ss !! i = Some s ∧ promise s = Rejected e'.
Proof.
  induction ss as [|s ss IH]; simpl; [done|].
  unfold slot_rejection. destruct (promise s) as [| |e'] eqn:Hp.
  - intros H. destruct (IH H) as (i & s' & e'' & ? & ?). by exists (S i), s', e''.
  - intros H. destruct (IH H) as (i & s' & e'' & ? & ?). by exists (S i), s', e''.
  - intros _. by exists 0, s, e'.
Qed.

Lemma open_slot_ok pool i : slot_ok (open_slot (TResult:=TResult) pool i).
Proof. unfold open_slot, slot_ok. destruct (workers pool !! i); simpl; done. Qed.

Lemma wf_start pool (cs : list (list TInput)) onProgress :
  wf (start (TResult:=TResult) pool cs onProgress).
Proof.
  unfold wf, start; simpl. rewrite length_replicate, length_map, length_seq.
  split; [done|]. split; [done|]. split.
  - intros i s Hs. rewrite list_lookup_fmap in Hs.
    destruct (seq 0 (length cs) !! i); [|done]. injection Hs as <-.
    apply open_slot_ok.
  - apply first_rejection_Some.
Qed.

Lemma run_snoc d trace ev : run d (trace ++ [ev]) = step (run d trace) ev.
Proof. unfold run. apply foldl_snoc. Qed.

Lemma run_app d trace1 trace2 : run d (trace1 ++ trace2) = run (run d trace1) trace2.
Proof. unfold run. apply foldl_app. Qed.

Lemma run_cons d ev trace : run d (ev :: trace) = run (step d ev) trace.
Proof. done. Qed.

Lemma worker_view_snoc i trace ev :
  worker_view i (trace ++ [ev]) = view_step i (worker_view i trace) ev.
Proof. unfold worker_view. apply foldl_snoc. Qed.

(** One event, seen from chunk [i]. *)
Lemma step_view d ev i s c :
  wf d →
  slots d !! i = Some s →
  workerProgress d !! i = Some c →
  ∃ s',
    slots (step d ev) !! i = Some s'
    ∧ promise s' = (view_step i (promise s, c) ev).1
    ∧ workerProgress (step d ev) !! i = Some (view_step i (promise s, c) ev).2.
Proof.
  intros (Hlen & _ & Hok & _) Hs Hc.
  assert (i < length (workerProgress d)) as Hi by (eapply lookup_lt_Some; done).
  destruct (Hok i s Hs) as [Hh He].
  destruct s as [p h el]. unfold is_pending in *. simpl in *.
  destruct ev as [j msg|j err]; simpl.
  - destruct (decide (j = i)) as [->|Hne].
    + rewrite Hs. unfold view_step. simpl.
      destruct p; subst h; simpl; try seen.
      rewrite Nat.eqb_refl.
      destruct msg as [n|v|v]; simpl; lookups; rewrite ?Hs; simpl;
        seen.
    + assert (view_step i (p, c) (MessageFrom j msg) = (p, c)) as ->.
      { unfold view_step; simpl. destruct p, msg; try done;
          by destruct (Nat.eqb_spec j i). }
      destruct (slots d !! j) as [sj|]; [|seen].
      destruct (messageHandler sj); [|seen].
      destruct msg; simpl; lookups; seen.
  - destruct (decide (j = i)) as [->|Hne].
    + rewrite Hs. unfold view_step. simpl.
      destruct p; simpl.
      * rewrite Nat.eqb_refl. rewrite He by done.
        unfold on_error, reject; simpl. lookups.
        rewrite Hs; simpl. lookups. rewrite Hs; simpl. seen.
      * destruct el; [|seen].
        unfold on_error, reject; simpl. lookups. rewrite Hs; simpl.
        lookups. rewrite Hs; simpl. seen.
      * destruct el; [|seen].
        unfold on_error, reject; simpl. lookups. rewrite Hs; simpl.
        lookups. rewrite Hs; simpl. seen.
    + assert (view_step i (p, c) (ErrorFrom j err) = (p, c)) as ->.
      { unfold view_step; simpl. destruct p; try done;
          by destruct (Nat.eqb_spec j i). }
      destruct (slots d !! j) as [sj|] eqn:Hsj; [|seen].
      destruct (errorListener sj); [|seen].
      unfold on_error, reject; simpl. lookups. rewrite Hsj; simpl.
      destruct (is_pending _); simpl; lookups; seen.
Qed.

(** [Promise.all] keeps the reason of the first rejection; a later one
    is the error of a worker whose promise was still pending. *)
Lemma step_firstRejection d ev :
  wf d →
  firstRejection (step d ev)
  = match firstRejection d with
    | Some e => Some e
    | None =>
        match ev with
        | ErrorFrom i err =>
            match slots d !! i with
            | Some s => if is_pending s then Some (WorkerError err) else None
            | None => None
            end
        | MessageFrom _ _ => None
        end
    end.
Proof.
  intros (_ & _ & Hok & _).
  destruct ev as [j msg|j err]; simpl.
  - destruct (slots d !! j) as [sj|]; [|by destruct (firstRejection d)].
    destruct (messageHandler sj); [|by destruct (firstRejection d)].
    destruct msg; simpl; by destruct (firstRejection d).
  - destruct (slots d !! j) as [sj|] eqn:Hsj; [|by destruct (firstRejection d)].
    destruct (Hok j sj Hsj) as [Hh He].
    destruct sj as [p h el]. unfold is_pending in *. simpl in *.
    destruct p; simpl.
    + rewrite He by done. unfold on_error, reject; simpl. lookups.
      rewrite Hsj; simpl. by destruct (firstRejection d).
    + destruct el; [|by destruct (firstRejection d)].
      unfold on_error, reject; simpl. lookups. rewrite Hsj; simpl.
      by destruct (firstRejection d).
    + destruct el; [|by destruct (firstRejection d)].
      unfold on_error, reject; simpl. lookups. rewrite Hsj; simpl.
      by destruct (firstRejection d).
Qed.

Lemma step_lengths d ev :
  length (workerProgress (step d ev)) = length (workerProgress d)
  ∧ length (slots (step d ev)) = length (slots d)
  ∧ chunks (step d ev) = chunks d
  ∧ notify (step d ev) = notify d.
Proof.
  destruct ev as [j msg|j err]; simpl.
  - destruct (slots d !! j) as [sj|]; [|done].
    destruct (messageHandler sj); [|done].
    destruct msg; simpl; rewrite ?length_insert, ?length_alter; done.
  - destruct (slots d !! j) as [sj|]; [|done].
    destruct (errorListener sj); [|done].
    unfold on_error, reject; simpl.
    destruct (alter _ j _ !! j) as [s'|]; simpl; rewrite ?length_alter; [|done].
    destruct (is_pending s'); simpl; rewrite ?length_alter; done.
Qed.

Lemma settle_removeListener_ok s p :
  p ≠ Pending → slot_ok s → slot_ok (settle p (removeListener s)).
Proof.
  intros Hp [Hh He]. destruct s as [q h el], q, p; done.
Qed.

Lemma settle_on_error_ok s p :
  p ≠ Pending → slot_ok s → slot_ok (settle p (removeListener (fire_once s))).
Proof.
  intros Hp [Hh He]. destruct s as [q h el], q, p; done.
Qed.

Lemma removeListener_settled_ok s :
  is_pending s = false → slot_ok s → slot_ok (removeListener (fire_once s)).
Proof.
  intros Hp [Hh He]. destruct s as [q h el], q; done.
Qed.

Lemma step_slot_ok d ev :
  (∀ i s, slots d !! i = Some s → slot_ok s) →
  ∀ i s, slots (step d ev) !! i = Some s → slot_ok s.
Proof.
  intros Hok i s'.
  destruct ev as [j msg|j err]; simpl.
  - destruct (slots d !! j) as [sj|] eqn:Hsj; [|apply Hok].
    destruct (messageHandler sj); [|apply Hok].
    destruct msg; simpl; [apply Hok| |];
      (destruct (decide (j = i)) as [->|Hne]; lookups; [|apply Hok];
       rewrite Hsj; simpl; intros [= <-];
       apply settle_removeListener_ok; [done|by eapply Hok]).
  - destruct (slots d !! j) as [sj|] eqn:Hsj; [|apply Hok].
    destruct (errorListener sj); [|apply Hok].
    unfold on_error, reject; simpl. lookups. rewrite Hsj; simpl.
    destruct (is_pending (removeListener (fire_once sj))) eqn:Hp; simpl.
    + destruct (decide (j = i)) as [->|Hne]; lookups; [|apply Hok].
      rewrite Hsj; simpl. intros [= <-].
      apply settle_on_error_ok; [done|by eapply Hok].
    + destruct (decide (j = i)) as [->|Hne]; lookups; [|apply Hok].
      rewrite Hsj; simpl. intros [= <-].
      apply removeListener_settled_ok; [done|by eapply Hok].
Qed.

Lemma wf_step d ev : wf d → wf (step d ev).
Proof.
  intros Hwf. pose proof Hwf as (Hlen & Hcs & Hok & Hrej).
  destruct (step_lengths d ev) as (Hl1 & Hl2 & Hl3 & _).
  split; [lia|]. split; [by rewrite Hl3, Hl2|]. split; [by apply step_slot_ok|].
  intros e. rewrite step_firstRejection by done.
  assert (∀ i s e', slots d !! i = Some s → promise s = Rejected e' →
            ∃ i s e', slots (step d ev) !! i = Some s ∧ promise s = Rejected e') as Hkeep.
  { intros i s e' Hs Hp.
    destruct (lookup_lt_is_Some_2 (workerProgress d) i) as [c Hc].
    { rewrite Hlen. by eapply lookup_lt_Some. }
    destruct (step_view d ev i s c Hwf Hs Hc) as (s' & Hs' & Hp' & _).
    exists i, s', e'. split; [done|]. rewrite Hp', Hp.
    unfold view_step; simpl. by destruct ev. }
  destruct (firstRejection d) as [e0|] eqn:Hfr.
  - intros _. destruct (Hrej e0 eq_refl) as (i & s & e' & Hs & Hp). by eapply Hkeep.
  - destruct ev as [j msg|j err]; [done|].
    destruct (slots d !! j) as [sj|] eqn:Hsj; [|done].
    destruct (is_pending sj) eqn:Hpend; [|done]. intros _.
    destruct (lookup_lt_is_Some_2 (workerProgress d) j) as [c Hc].
    { rewrite Hlen. by eapply lookup_lt_Some. }
    destruct (step_view d (ErrorFrom j err) j sj c Hwf Hsj Hc) as (s' & Hs' & Hp' & _).
    exists j, s', (WorkerError err). split; [done|]. rewrite Hp'.
    unfold is_pending in Hpend. unfold view_step; simpl.
    destruct (promise sj); [|done..]. by rewrite Nat.eqb_refl.
Qed.

Lemma wf_run d trace : wf d → wf (run d trace).
Proof.
  revert d. induction trace as [|ev trace IH]; intros d Hwf; [done|].
  simpl. apply IH. by apply wf_step.
Qed.

Lemma run_view d trace i s c :
  wf d →
  slots d !! i = Some s →
  workerProgress d !! i = Some c →
  ∃ s',
    slots (run d trace) !! i = Some s'
    ∧ promise s' = (foldl (view_step i) (promise s, c) trace).1
    ∧ workerProgress (run d trace) !! i = Some (foldl (view_step i) (promise s, c) trace).2.
Proof.
  revert d s c. induction trace as [|ev trace IH]; intros d s c Hwf Hs Hc.
  - by exists s.
  - destruct (step_view d ev i s c Hwf Hs Hc) as (s1 & Hs1 & Hp1 & Hc1).
    destruct (IH (step d ev) s1 _ (wf_step d ev Hwf) Hs1 Hc1) as (s' & Hs' & Hp' & Hc').
    exists s'. simpl. rewrite Hp1, <- surjective_pairing in Hp', Hc'. done.
Qed.

(** On a pool whose workers are alive, chunk [i] evolves as worker [i]'s
    view of the trace says. *)
Lemma start_view cpus poolSize (cs : list (list TInput)) onProgress trace i :
  length cs ≤ size (createWorkerPool cpus poolSize) →
  i < length cs →
  ∃ s',
    slots (run (start (createWorkerPool cpus poolSize) cs onProgress) trace) !! i = Some s'
    ∧ promise s' = (worker_view i trace).1
    ∧ workerProgress (run (start (createWorkerPool cpus poolSize) cs onProgress) trace) !! i
      = Some (latest_count trace i).
Proof.
  intros Hsize Hi.
  apply (run_view _ trace i
           {| promise := Pending; messageHandler := true; errorListener := true |} 0%Z).
  - apply wf_start.
  - simpl. rewrite list_lookup_fmap, lookup_seq_lt by done. simpl.
    unfold open_slot. simpl. rewrite lookup_seq_lt by (simpl in Hsize; lia). done.
  - simpl. by apply lookup_replicate_2.
Qed.

Lemma run_lengths d trace :
  length (workerProgress (run d trace)) = length (workerProgress d)
  ∧ length (slots (run d trace)) = length (slots d)
  ∧ chunks (run d trace) = chunks d
  ∧ notify (run d trace) = notify d.
Proof.
  revert d. induction trace as [|ev trace IH]; intros d; [done|].
  simpl. destruct (IH (step d ev)) as (-> & -> & -> & ->). apply step_lengths.
Qed.

Lemma run_workerProgress cpus poolSize (cs : list (list TInput)) onProgress trace :
  length cs ≤ size (createWorkerPool cpus poolSize) →
  workerProgress (run (start (createWorkerPool cpus poolSize) cs onProgress) trace)
  = map (latest_count trace) (seq 0 (length cs)).
Proof.
  intros Hsize. apply list_eq. intros i.
  destruct (decide (i < length cs)) as [Hi|Hi].
  - destruct (start_view cpus poolSize cs onProgress trace i Hsize Hi) as (_ & _ & _ & ->).
    rewrite list_lookup_fmap, lookup_seq_lt by done. done.
  - rewrite !lookup_ge_None_2; [done| |].
    + rewrite length_map, length_seq. lia.
    + destruct (run_lengths (start (createWorkerPool cpus poolSize) cs onProgress) trace)
        as (-> & _). simpl. rewrite length_replicate. lia.
Qed.

Lemma run_firstRejection d trace e :
  wf d → firstRejection d = Some e → firstRejection (run d trace) = Some e.
Proof.
  revert d. induction trace as [|ev trace IH]; intros d Hwf He; [done|].
  simpl. apply IH; [by apply wf_step|].
  rewrite step_firstRejection by done. by rewrite He.
Qed.

(** A step calls [onProgress] at most once, with the sum of the counts
    it has just stored. *)
Lemma step_calls d ev :
  (onProgressCalls (step d ev) = onProgressCalls d
   ∧ (notify d = true → workerProgress (step d ev) = workerProgress d))
  ∨ (notify d = true
     ∧ onProgressCalls (step d ev)
       = onProgressCalls d ++ [total (workerProgress (step d ev))]).
Proof.
  destruct ev as [j msg|j err]; simpl.
  - destruct (slots d !! j) as [sj|]; [|by left].
    destruct (messageHandler sj); [|by left].
    destruct msg; simpl; [|by left..].
    destruct (notify d); [by right|]. by left.
  - destruct (slots d !! j) as [sj|]; [|by left].
    destruct (errorListener sj); [|by left].
    unfold on_error, reject; simpl.
    destruct (alter _ j _ !! j) as [s'|]; simpl; [|by left].
    destruct (is_pending s'); simpl; by left.
Qed.

Lemma calls_ok_step d ev : calls_ok d → calls_ok (step d ev).
Proof.
  unfold calls_ok. destruct (step_lengths d ev) as (_ & _ & _ & ->).
  destruct (notify d) eqn:Hn.
  - intros Hd prev. destruct (step_calls d ev) as [[-> Hwp]|[_ ->]].
    + rewrite Hwp by done. apply Hd.
    + rewrite last_snoc. by intros [= <-].
  - intros Hd. destruct (step_calls d ev) as [[-> _]|[? _]]; [done|congruence].
Qed.

Lemma calls_ok_run d trace : calls_ok d → calls_ok (run d trace).
Proof.
  revert d. induction trace as [|ev trace IH]; intros d Hd; [done|].
  simpl. apply IH. by apply calls_ok_step.
Qed.

Lemma calls_ok_start pool (cs : list (list TInput)) onProgress :
  calls_ok (start (TResult:=TResult) pool cs onProgress).
Proof. unfold calls_ok. simpl. by destruct onProgress. Qed.

Lemma dispatch_started pool (items : list TInput) onProgress :
  items ≠ [] →
  ∃ cs,
    split_chunks items (size pool) = Some cs
    ∧ concat cs = items
    ∧ 1 ≤ length cs
    ∧ (1 ≤ size pool → length cs ≤ size pool)
    ∧ dispatch (TResult:=TResult) pool items onProgress
      = Some (InFlight (start pool cs onProgress)).
Proof.
  intros Hne.
  assert (1 ≤ length items) as Hn by (destruct items; [done|simpl; lia]).
  destruct (split_chunks_closed items (size pool) Hne) as [Hsplit Hcat].
  pose proof (chunkSizeOf_pos (length items) (size pool) Hn) as Hc.
  eexists. split; [exact Hsplit|]. split; [exact Hcat|].
  rewrite length_map, length_seq.
  split; [by apply ceil_div_pos|]. split.
  - intros HP. unfold chunkSizeOf.
    destruct (Nat.eqb_spec (size pool) 0); [lia|]. by apply chunk_count_le.
  - unfold dispatch. destruct items; [done|]. by rewrite Hsplit.
Qed.

End Events.

(** *** Dispatch after termination *)

(** C8 as stated fails for the empty list: the guard on
    [items.length === 0] answers before any worker is touched. *)
Lemma dispatch_empty_after_terminate :
  dispatch_after (TInput:=nat) (TResult:=nat)
    (terminate (createWorkerPool 8 (Some 4))) [] false []
  = Some (Resolved []).
Proof. reflexivity. Qed.

(** C8 (amended): for every non-empty input list, [dispatch] on a
    terminated pool is rejected with the [TypeError] of [workers[0]] being
    undefined, whatever happens afterwards; it never yields results. *)
Theorem dispatch_after_terminate {TInput TResult : Type} pool
    (items : list TInput) onProgress (trace : list (Event TResult)) :
  items ≠ [] →
  dispatch_after (terminate pool) items onProgress trace = Some (Failed TypeError).
Proof.
  intros Hne.
  destruct (dispatch_started (TResult:=TResult) (terminate pool) items onProgress Hne)
    as (cs & _ & _ & Hlen & _ & Hd).
  unfold dispatch_after. rewrite Hd. f_equal. unfold outcome.
  rewrite (run_firstRejection _ trace TypeError); [done|apply wf_start|].
  destruct cs; [simpl in Hlen; lia|done].
Qed.

Lemma dispatch_after_terminate_witness :
  dispatch_after (TResult:=nat) (terminate (createWorkerPool 8 (Some 4)))
    [1; 2; 3] true [MessageFrom 0 (Result 7)]
  = Some (Failed TypeError).
Proof. apply dispatch_after_terminate. done. Defined.

(** *** Worker failure *)

(** C6 as stated fails: worker 0 posts its result and then fails while
    worker 1 is still busy; its error is ignored and the dispatch
    resolves. *)
Lemma error_after_own_result :
  dispatch_after (TResult:=nat) (createWorkerPool 3 None) [1; 2] false
    [MessageFrom 0 (Result 10)]
  = Some StillPending
  ∧ dispatch_after (TResult:=nat) (createWorkerPool 3 None) [1; 2] false
      [MessageFrom 0 (Result 10); ErrorFrom 0 "boom"; MessageFrom 1 (Result 20)]
    = Some (Resolved [10; 20]).
Proof. split; reflexivity. Qed.

(** C6 (amended): if a worker fails while the dispatch is in flight and
    before its own result has been received, the whole dispatch fails
    with that worker's error, whatever the other workers do afterwards;
    and a dispatch that resolves carries one result for every chunk, the
    one its worker delivered, never a part of them. *)
Theorem worker_failure_fails_dispatch {TInput TResult : Type} pool
    (items : list TInput) onProgress (d0 : Dispatch TInput TResult)
    (before after : list (Event TResult)) i err s :
  dispatch pool items onProgress = Some (InFlight d0) →
  outcome (run d0 before) = StillPending →
  slots (run d0 before) !! i = Some s →
  promise s = Pending →
  outcome (run d0 (before ++ ErrorFrom i err :: after)) = Failed (WorkerError err)
  ∧ ∀ trace results,
      outcome (run d0 trace) = Resolved results →
      length results = length (chunks d0)
      ∧ ∀ k value, results !! k = Some value →
          ∃ s', slots (run d0 trace) !! k = Some s' ∧ promise s' = Fulfilled value.
Proof.
  intros Hd Hflight Hs Hp.
  assert (wf d0) as Hwf.
  { unfold dispatch in Hd. destruct items; [done|].
    destruct (split_chunks _ _); [|done]. injection Hd as <-. apply wf_start. }
  split.
  - rewrite run_app, run_cons. unfold outcome.
    rewrite (run_firstRejection _ after (WorkerError err)); [done| |].
    + apply wf_step. by apply wf_run.
    + rewrite step_firstRejection by (by apply wf_run).
      unfold outcome in Hflight.
      destruct (firstRejection (run d0 before)); [done|].
      rewrite Hs. unfold is_pending. by rewrite Hp.
  - intros trace results. unfold outcome.
    destruct (firstRejection (run d0 trace)); [done|].
    destruct (mapM fulfilled (slots (run d0 trace))) as [rs|] eqn:Hm; [|done].
    intros [= <-]. apply mapM_Some_1 in Hm. split.
    + rewrite <- (Forall2_length _ _ _ Hm).
      destruct (run_lengths d0 trace) as (_ & -> & _).
      by destruct Hwf as (_ & -> & _).
    + intros k value Hk.
      destruct (Forall2_lookup_r _ _ _ _ _ Hm Hk) as (s' & Hs' & Hv).
      exists s'. split; [done|]. unfold fulfilled in Hv.
      destruct (promise s'); [done| |done]. by injection Hv as ->.
Qed.

Lemma worker_failure_fails_dispatch_witness :
  outcome (run (start (TResult:=nat) (createWorkerPool 3 None) [[1]; [2]] false)
               ([MessageFrom 0 (Result 10)] ++ ErrorFrom 1 "boom" :: [MessageFrom 1 (Result 20)]))
  = Failed (WorkerError "boom").
Proof.
  apply (worker_failure_fails_dispatch (createWorkerPool 3 None) [1; 2] false
           (start (createWorkerPool 3 None) [[1]; [2]] false)
           [MessageFrom 0 (Result 10)] [MessageFrom 1 (Result 20)] 1 "boom"
           {| promise := Pending; messageHandler := true; errorListener := true |});
    reflexivity.
Defined.


(** *** Progress reporting *)

(** C7: while a dispatch is in flight, every value handed to
    [onProgress] is the sum, over the chunks, of the count each worker
    reported last (while its chunk was pending); and when a worker
    resends the count it reported last, the value reported next is not
    below the one reported before. *)
Theorem progress_is_cumulative {TInput TResult : Type} cpus poolSize
    (items : list TInput) onProgress (d0 : Dispatch TInput TResult)
    (trace : list (Event TResult)) (ev : Event TResult) :
  1 ≤ size (createWorkerPool cpus poolSize) →
  dispatch (createWorkerPool cpus poolSize) items onProgress = Some (InFlight d0) →
  let d := run d0 trace in
  let d' := step d ev in
  (onProgressCalls d' = onProgressCalls d
   ∨ onProgressCalls d'
     = onProgressCalls d
       ++ [total (map (latest_count (trace ++ [ev])) (seq 0 (length (chunks d0))))])
  ∧ ∀ i prev next,
      ev = MessageFrom i (Progress (latest_count trace i)) →
      last (onProgressCalls d) = Some prev →
      last (onProgressCalls d') = Some next →
      (prev ≤ next)%Z.
Proof.
  intros HP Hd d d'.
  assert (items ≠ []) as Hne by (intros ->; done).
  destruct (dispatch_started (TResult:=TResult) (createWorkerPool cpus poolSize)
              items onProgress Hne) as (cs & _ & _ & _ & Hsize & Hd').
  rewrite Hd' in Hd. injection Hd as <-. specialize (Hsize HP).
  assert (calls_ok d) as Hok by apply calls_ok_run, calls_ok_start.
  split.
  - destruct (step_calls d ev) as [[Hsame _]|[_ Hcall]]; [by left|right].
    fold d' in Hcall. rewrite Hcall. f_equal. f_equal.
    unfold d', d. rewrite <- run_snoc.
    by rewrite (run_workerProgress cpus poolSize cs onProgress (trace ++ [ev])).
  - intros i prev next Hev Hprev Hnext.
    assert (workerProgress d' = workerProgress d) as Hwp.
    { unfold d'. rewrite Hev. simpl. destruct (slots d !! i) as [s|] eqn:Hs; [|done].
      destruct (messageHandler s); [|done]. simpl.
      apply list_insert_id.
      assert (i < length cs) as Hi.
      { apply lookup_lt_Some in Hs. unfold d in Hs.
        destruct (run_lengths (start (createWorkerPool cpus poolSize) cs onProgress) trace)
          as (_ & Hl & _). rewrite Hl in Hs. simpl in Hs.
        by rewrite length_map, length_seq in Hs. }
      destruct (start_view cpus poolSize cs onProgress trace i Hsize Hi)
        as (_ & _ & _ & Hc). exact Hc. }
    unfold calls_ok in Hok.
    destruct (step_calls d ev) as [[Hsame _]|[Hn Hcall]].
    + fold d' in Hsame. rewrite Hsame in Hnext.
      assert (prev = next) by congruence. lia.
    + rewrite Hn in Hok. fold d' in Hcall. rewrite Hcall, last_snoc in Hnext.
      injection Hnext as <-. rewrite Hwp. apply Hok in Hprev. lia.
Qed.

Lemma progress_is_cumulative_witness :
  let d0 := start (TResult:=nat) (createWorkerPool 8 (Some 4)) [[1; 2]; [3; 4]; [5]] true in
  let trace := [MessageFrom 0 (Progress 1); MessageFrom 1 (Progress 2)] in
  let ev := MessageFrom 0 (Progress 1) in
  onProgressCalls (run d0 trace) = [1; 3]%Z
  ∧ onProgressCalls (step (run d0 trace) ev) = [1; 3; 3]%Z
  ∧ (3 ≤ 3)%Z.
Proof.
  intros d0 trace ev.
  split; [reflexivity|]. split; [reflexivity|].
  eapply (proj2 (progress_is_cumulative 8 (Some 4) [1; 2; 3; 4; 5] true d0 trace ev
                   ltac:(simpl; lia) eq_refl) 0 3%Z 3%Z);
    reflexivity.
Defined.

(** *** One worker against four *)

Section Results.
Context {TInput TResult : Type}.

(** When every worker answers its chunk with [f chunk], the dispatch
    resolves to the per-chunk results in chunk order, whichever worker
    finishes first. *)
Lemma dispatch_resolves (f : list TInput → TResult) cpus poolSize
    (items : list TInput) onProgress (trace : list (Event TResult)) :
  1 ≤ size (createWorkerPool cpus poolSize) →
  applies f items (size (createWorkerPool cpus poolSize)) trace →
  ∃ cs,
    split_chunks items (size (createWorkerPool cpus poolSize)) = Some cs
    ∧ concat cs = items
    ∧ dispatch_after (createWorkerPool cpus poolSize) items onProgress trace
      = Some (Resolved (map f cs)).
Proof.
  intros HP Happ. set (pool := createWorkerPool cpus poolSize) in *.
  destruct (decide (items = [])) as [->|Hne].
  { exists []. done. }
  destruct (dispatch_started (TResult:=TResult) pool items onProgress Hne)
    as (cs & Hsplit & Hcat & _ & Hsize & Hd).
  specialize (Hsize HP).
  exists cs. split; [done|]. split; [done|].
  unfold dispatch_after. rewrite Hd. f_equal.
  set (d := run (start pool cs onProgress) trace).
  assert (∀ i chunk, cs !! i = Some chunk →
            ∃ s, slots d !! i = Some s ∧ promise s = Fulfilled (f chunk)) as Hslots.
  { intros i chunk Hi.
    destruct (start_view cpus poolSize cs onProgress trace i Hsize)
      as (s & Hs & Hp & _); [by eapply lookup_lt_Some|].
    exists s. split; [done|]. rewrite Hp. by eapply Happ. }
  assert (length (slots d) = length cs) as Hlen.
  { unfold d. destruct (run_lengths (start pool cs onProgress) trace) as (_ & -> & _).
    simpl. by rewrite length_map, length_seq. }
  unfold outcome.
  destruct (firstRejection d) as [e|] eqn:Hfr.
  { assert (wf d) as (_ & _ & _ & Hrej) by apply wf_run, wf_start.
    destruct (Hrej e Hfr) as (i & s & e' & Hs & Hp).
    destruct (lookup_lt_is_Some_2 cs i) as [chunk Hc].
    { rewrite <- Hlen. by eapply lookup_lt_Some. }
    destruct (Hslots i chunk Hc) as (s' & Hs' & Hp').
    rewrite Hs in Hs'. injection Hs' as <-. by rewrite Hp in Hp'. }
  rewrite (mapM_Some_2 fulfilled (slots d) (map f cs)); [done|].
  apply Forall2_same_length_lookup_2; [by rewrite length_map|].
  intros i s v Hs Hv. rewrite list_lookup_fmap in Hv.
  destruct (cs !! i) as [chunk|] eqn:Hc; [|done]. injection Hv as <-.
  destruct (Hslots i chunk Hc) as (s' & Hs' & Hp').
  rewrite Hs in Hs'. injection Hs' as <-. unfold fulfilled. by rewrite Hp'.
Qed.

End Results.

(** C5 as stated fails: with every worker returning its chunk unchanged,
    one worker yields one result and four workers yield two. *)
Lemma one_worker_against_four :
  let f := λ chunk : list nat, chunk in
  let trace1 := [MessageFrom 0 (Result [1; 2])] in
  let trace4 := [MessageFrom 1 (Result [2]); MessageFrom 0 (Result [1])] in
  applies f [1; 2] 1 trace1
  ∧ applies f [1; 2] 4 trace4
  ∧ dispatch_after (createWorkerPool 8 (Some 1)) [1; 2] false trace1
    = Some (Resolved [[1; 2]])
  ∧ dispatch_after (createWorkerPool 8 (Some 4)) [1; 2] false trace4
    = Some (Resolved [[1]; [2]])
  ∧ dispatch_after (createWorkerPool 8 (Some 1)) [1; 2] false trace1
    ≠ dispatch_after (createWorkerPool 8 (Some 4)) [1; 2] false trace4.
Proof.
  intros f trace1 trace4. split; [|split; [|split; [|split]]].
  - intros cs i chunk [= <-] Hi. destruct i as [|[|]]; simplify_eq/=; done.
  - intros cs i chunk [= <-] Hi. destruct i as [|[|[|]]]; simplify_eq/=; done.
  - reflexivity.
  - reflexivity.
  - discriminate.
Qed.

(** C5 (amended): [dispatch] returns one result per chunk, in chunk
    order.  When every worker maps the same function over the items of
    its chunk, the results of a pool of one worker and those of a pool of
    four, concatenated, are the same list, element for element: the
    function mapped over the input. *)
Theorem one_worker_same_as_four {TInput TItem : Type} (g : TInput → TItem) cpus
    (items : list TInput) onProgress (trace1 trace4 : list (Event (list TItem))) :
  applies (map g) items 1 trace1 →
  applies (map g) items 4 trace4 →
  ∃ results1 results4,
    dispatch_after (createWorkerPool cpus (Some 1)) items onProgress trace1
    = Some (Resolved results1)
    ∧ dispatch_after (createWorkerPool cpus (Some 4)) items onProgress trace4
      = Some (Resolved results4)
    ∧ concat results1 = concat results4
    ∧ concat results1 = map g items.
Proof.
  intros H1 H4.
  destruct (dispatch_resolves (map g) cpus (Some 1) items onProgress trace1)
    as (cs1 & _ & Hcat1 & Hr1); [simpl; lia|done|].
  destruct (dispatch_resolves (map g) cpus (Some 4) items onProgress trace4)
    as (cs4 & _ & Hcat4 & Hr4); [simpl; lia|done|].
  exists (map (map g) cs1), (map (map g) cs4).
  split; [done|]. split; [done|].
  assert (∀ cs : list (list TInput), concat (map (map g) cs) = map g (concat cs)) as Hc.
  { induction cs as [|c cs IH]; [done|]. simpl. by rewrite IH, map_app. }
  rewrite !Hc, Hcat1, Hcat4. done.
Qed.

Lemma one_worker_same_as_four_witness :
  ∃ results1 results4,
    dispatch_after (createWorkerPool 8 (Some 1)) [1; 2] false
      [MessageFrom 0 (Result [2; 3])]
    = Some (Resolved results1)
    ∧ dispatch_after (createWorkerPool 8 (Some 4)) [1; 2] false
        [MessageFrom 1 (Result [3]); MessageFrom 0 (Result [2])]
      = Some (Resolved results4)
    ∧ concat results1 = concat results4
    ∧ concat results1 = map S [1; 2].
Proof.
  apply (one_worker_same_as_four S 8 [1; 2] false).
  - intros cs i chunk [= <-] Hi. destruct i as [|[|]]; simplify_eq/=; done.
  - intros cs i chunk [= <-] Hi. destruct i as [|[|[|]]]; simplify_eq/=; done.
Defined.

End WorkerPoolFacts.

(** ** Properties of the relationship types *)

Module GraphFacts.
Import Graph.


End GraphFacts.

(** ** Properties of the search tool *)

Module SearchFacts.
Import Tools.

(** C4: with the lexical index not built, the tool ranks by
    [semanticSearch] alone when embeddings are ready (its rows are the
    listing, [hybridSearch] is not consulted), and returns the fixed
    message that search is not available, as a value, when they are not. *)
Theorem search_without_lexical_index {Hit : Type} (env : SearchEnv Hit)
    (query : string) (limit : option Z) :
  isBM25Ready env = false →
  let k := default 10%Z limit in
  (isEmbeddingReady env = true →
     searchTool env query limit = semantic_only env query k
     ∧ ∀ row rows, semanticSearch env query k = Returned (row :: rows) →
         searchTool env query limit = Returned (SearchListing (row :: rows) k))
  ∧ (isEmbeddingReady env = false →
       searchTool env query limit = Returned (SearchText search_unavailable)).
Proof.
  intros Hbm k. unfold searchTool. fold k. rewrite Hbm. split.
  - intros ->. split; [done|]. intros row rows Hsem.
    unfold semantic_only. by rewrite Hsem.
  - by intros ->.
Qed.

Lemma search_without_lexical_index_witness :
  let env := {| hybridSearch := λ _ _, Returned ["lexical"];
                semanticSearch := λ _ _, Returned ["semantic"];
                isEmbeddingReady := true;
                isBM25Ready := false |} in
  searchTool env "auth" None = Returned (SearchListing ["semantic"] 10).
Proof.
  intros env.
  apply (proj2 (proj1 (search_without_lexical_index env "auth" None eq_refl) eq_refl)
           "semantic" []).
  reflexivity.
Defined.

(** C10: with the lexical index ready, a failing hybrid search and no
    embeddings, the tool returns the message that no code matches the
    query; that message is not the one for an unavailable search, and
    nothing is thrown. *)
Theorem hybrid_failure_without_embeddings {Hit : Type} (env : SearchEnv Hit)
    (query : string) (limit : option Z) (error : string) :
  isBM25Ready env = true →
  hybridSearch env query (default 10%Z limit) = Thrown error →
  isEmbeddingReady env = false →
  searchTool env query limit = Returned (SearchText (no_code_found query))
  ∧ no_code_found query ≠ search_unavailable.
Proof.
  intros Hbm Hhy Hem. split.
  - unfold searchTool. by rewrite Hbm, Hhy, Hem.
  - discriminate.
Qed.

Lemma hybrid_failure_without_embeddings_witness :
  let env := {| hybridSearch := λ _ _, Thrown (A:=list nat) "index corrupted";
                semanticSearch := λ _ _, Returned [1];
                isEmbeddingReady := false;
                isBM25Ready := true |} in
  searchTool env "auth" (Some 5%Z) = Returned (SearchText (no_code_found "auth")).
Proof.
  intros env.
  apply (hybrid_failure_without_embeddings env "auth" (Some 5%Z) "index corrupted");
    reflexivity.
Defined.

End SearchFacts.

(** ** Properties of the blast-radius tool *)

Module BlastRadiusFacts.
Import Tools.

Lemma tier_of_snoc_same placed d row :
  tier_of (placed ++ [(d, row)]) d = Some (default [] (tier_of placed d) ++ [row]).
Proof.
  unfold tier_of. rewrite filter_app, filter_cons_True by done.
  rewrite filter_nil. destruct (filter _ placed) as [|p kept]; simpl; [done|].
  by rewrite fmap_app.
Qed.

Lemma tier_of_snoc_other placed d d' row :
  d ≠ d' → tier_of (placed ++ [(d, row)]) d' = tier_of placed d'.
Proof.
  intros Hne. unfold tier_of. rewrite filter_app, filter_cons_False by done.
  by rewrite filter_nil, app_nil_r.
Qed.

Lemma tier_of_Some placed d rows :
  tier_of placed d = Some rows →
  rows ≠ [] ∧ ∀ row, row ∈ rows ↔ (d, row) ∈ placed.
Proof.
  unfold tier_of. intros H.
  assert (rows = (filter (λ p, p.1 = d) placed).*2 ∧ rows ≠ []) as [-> Hne].
  { destruct (filter _ placed); [done|]. injection H as <-. done. }
  split; [done|]. intros row. split.
  - intros ([d' row'] & -> & Hin)%list_elem_of_fmap.
    apply list_elem_of_filter in Hin as [Hd Hin]. simpl in *. by subst d'.
  - intros Hin. apply list_elem_of_fmap. exists (d, row). split; [done|].
    by apply list_elem_of_filter.
Qed.

Lemma collected_nothing : collected [] nothing_seen.
Proof. repeat split; try done. apply NoDup_nil. done. Qed.

(** One row: it is collected exactly when its id is non-empty and new. *)
Lemma visit_collected placed acc d row :
  collected placed acc →
  (visit d acc row = acc
   ∧ (truthy (id row) = true → id row ∈ ids_of placed))
  ∨ (collected (placed ++ [(d, row)]) (visit d acc row)
     ∧ truthy (id row) = true
     ∧ id row ∉ ids_of placed).
Proof.
  intros (Hall & Hseen & Htier & Hnd). unfold visit.
  destruct (truthy (id row)) eqn:Ht; simpl; [|by left].
  destruct (bool_decide (id row ∈ seenIds acc)) eqn:Hin; simpl.
  - left. split; [done|]. intros _.
    apply bool_decide_eq_true in Hin. rewrite Hseen in Hin.
    by apply elem_of_list_to_set in Hin.
  - right. apply bool_decide_eq_false in Hin. rewrite Hseen in Hin.
    rewrite elem_of_list_to_set in Hin.
    split; [|done]. unfold collected, ids_of in *. simpl.
    rewrite fmap_app. simpl. split; [by rewrite Hall|]. split; [|split].
    + rewrite Hseen, list_to_set_app_L. simpl.
      by rewrite (right_id_L ∅ (∪)), (comm_L (∪)).
    + intros d'. destruct (decide (d = d')) as [<-|Hne].
      * rewrite lookup_insert_eq, tier_of_snoc_same, Htier. done.
      * rewrite lookup_insert_ne by done. by rewrite tier_of_snoc_other.
    + apply NoDup_app. split; [done|]. split.
      * intros x Hx ->%list_elem_of_singleton. done.
      * apply NoDup_singleton.
Qed.

Lemma ids_of_app placed added : ids_of (placed ++ added) = ids_of placed ++ ids_of added.
Proof. unfold ids_of. apply fmap_app. Qed.

Lemma elem_of_ids_of x placed :
  x ∈ ids_of placed ↔ ∃ d row, (d, row) ∈ placed ∧ id row = x.
Proof.
  unfold ids_of. rewrite list_elem_of_fmap. split.
  - intros ([d row] & -> & Hin). by exists d, row.
  - intros (d & row & Hin & <-). by exists (d, row).
Qed.

(** The rows of one depth. *)
Lemma foldl_visit_collected results : ∀ placed acc d,
  collected placed acc →
  ∃ added,
    collected (placed ++ added) (foldl (visit d) acc results)
    ∧ (∀ d' row, (d', row) ∈ added →
         d' = d ∧ row ∈ results ∧ truthy (id row) = true)
    ∧ (∀ row, row ∈ results → truthy (id row) = true →
         id row ∈ ids_of (placed ++ added)).
Proof.
  induction results as [|row results IH]; intros placed acc d Hc.
  - exists []. rewrite app_nil_r. split; [done|]. split.
    + intros d' row H. by apply elem_of_nil in H.
    + intros row H. by apply elem_of_nil in H.
  - simpl. destruct (visit_collected placed acc d row Hc) as [[-> Hseen]|(Hc' & Ht & Hnew)].
    + destruct (IH placed acc d Hc) as (added & Hc' & Hfrom & Hall).
      exists added. split; [done|]. split.
      * intros d' row' Hin. destruct (Hfrom d' row' Hin) as (? & ? & ?).
        split; [done|]. split; [by apply list_elem_of_further|done].
      * intros row' [->|Hin]%elem_of_cons Ht.
        -- rewrite ids_of_app. apply elem_of_app. left. by apply Hseen.
        -- by apply Hall.
    + destruct (IH _ _ d Hc') as (added & Hc'' & Hfrom & Hall).
      exists ((d, row) :: added).
      replace (placed ++ (d, row) :: added) with ((placed ++ [(d, row)]) ++ added)
        by (by rewrite <- app_assoc).
      split; [done|]. split.
      * intros d' row' [[= -> ->]|Hin]%elem_of_cons.
        -- split; [done|]. split; [apply list_elem_of_here|done].
        -- destruct (Hfrom d' row' Hin) as (? & ? & ?).
           split; [done|]. split; [by apply list_elem_of_further|done].
      * intros row' [->|Hin]%elem_of_cons Ht'.
        -- rewrite !ids_of_app. apply elem_of_app. left. apply elem_of_app. right.
           apply list_elem_of_here.
        -- by apply Hall.
Qed.

(** All depths, entered at index [idx]. *)
Lemma combine_from_collected depthResults : ∀ idx placed acc,
  collected placed acc →
  ∃ added,
    collected (placed ++ added) (combine_from idx depthResults acc)
    ∧ (∀ d row, (d, row) ∈ added →
         ∃ k results, depthResults !! k = Some results ∧ d = idx + k + 1
                      ∧ row ∈ results ∧ truthy (id row) = true)
    ∧ (∀ k results row, depthResults !! k = Some results → row ∈ results →
         truthy (id row) = true →
         id row ∈ ids_of placed
         ∨ ∃ d' row', (d', row') ∈ added ∧ id row' = id row ∧ d' ≤ idx + k + 1).
Proof.
  induction depthResults as [|results rest IH]; intros idx placed acc Hc.
  - exists []. rewrite app_nil_r. split; [done|]. split.
    + intros d row H. by apply elem_of_nil in H.
    + intros k results row H. done.
  - simpl.
    destruct (foldl_visit_collected results placed acc (idx + 1) Hc)
      as (added1 & Hc1 & Hfrom1 & Hall1).
    destruct (IH (S idx) _ _ Hc1) as (added2 & Hc2 & Hfrom2 & Hall2).
    exists (added1 ++ added2). rewrite app_assoc. split; [done|]. split.
    + intros d row [Hin|Hin]%elem_of_app.
      * destruct (Hfrom1 d row Hin) as (-> & ? & ?).
        exists 0, results. split; [done|]. split; [lia|done].
      * destruct (Hfrom2 d row Hin) as (k & results' & ? & -> & ? & ?).
        exists (S k), results'. split; [done|]. split; [lia|done].
    + intros [|k] results' row Hk Hin Ht; simpl in Hk.
      * injection Hk as <-. specialize (Hall1 row Hin Ht).
        rewrite ids_of_app in Hall1. apply elem_of_app in Hall1 as [Hold|Hnew]; [by left|].
        right. apply elem_of_ids_of in Hnew as (d' & row' & Hin' & Hid).
        exists d', row'. destruct (Hfrom1 d' row' Hin') as (-> & _).
        split; [apply elem_of_app; by left|]. split; [done|lia].
      * destruct (Hall2 k results' row Hk Hin Ht) as [Hold|(d' & row' & Hin' & Hid & Hle)].
        -- rewrite ids_of_app in Hold. apply elem_of_app in Hold as [Hold|Hnew]; [by left|].
           right. apply elem_of_ids_of in Hnew as (d' & row' & Hin' & Hid).
           exists d', row'. destruct (Hfrom1 d' row' Hin') as (-> & _).
           split; [apply elem_of_app; by left|]. split; [done|lia].
        -- right. exists d', row'.
           split; [apply elem_of_app; by right|]. split; [done|lia].
Qed.

Lemma tier_of_NoDup placed d rows :
  NoDup (ids_of placed) → tier_of placed d = Some rows → NoDup (id <$> rows).
Proof.
  intros Hnd H. unfold tier_of in H.
  assert (rows = (filter (λ p, p.1 = d) placed).*2) as ->.
  { destruct (filter _ placed); [done|]. by injection H as <-. }
  rewrite <- list_fmap_compose. eapply sublist_NoDup; [exact Hnd|].
  unfold ids_of. apply fmap_sublist, sublist_filter.
Qed.

Lemma ids_of_inj placed d1 row1 d2 row2 :
  NoDup (ids_of placed) →
  (d1, row1) ∈ placed → (d2, row2) ∈ placed → id row1 = id row2 →
  d1 = d2 ∧ row1 = row2.
Proof.
  unfold ids_of. induction placed as [|p placed IH]; simpl.
  - intros _ H. by apply elem_of_nil in H.
  - intros [Hnotin Hnd]%NoDup_cons [H1|H1]%elem_of_cons [H2|H2]%elem_of_cons Hid.
    + subst p. by injection H2 as -> ->.
    + subst p. destruct Hnotin. simpl. rewrite Hid.
      apply list_elem_of_fmap. by exists (d2, row2).
    + subst p. destruct Hnotin. simpl. rewrite <- Hid.
      apply list_elem_of_fmap. by exists (d1, row1).
    + by apply IH.
Qed.

(** What [analyze] has collected, for a store answering [answer d] to the
    [d]-hop traversal. *)
Lemma analyze_collected executeQuery direction targetId depth :
  let n := Z.to_nat (Z.min depth 3) in
  let answer := λ d, catch_empty (executeQuery (Traverse direction targetId d)) in
  ∃ placed,
    collected placed (analyze executeQuery direction targetId depth)
    ∧ (∀ d row, (d, row) ∈ placed →
         1 ≤ d ≤ n ∧ row ∈ answer d ∧ truthy (id row) = true)
    ∧ (∀ d row, 1 ≤ d ≤ n → row ∈ answer d → truthy (id row) = true →
         ∃ d' row', (d', row') ∈ placed ∧ id row' = id row ∧ d' ≤ d).
Proof.
  intros n answer. unfold analyze, combine, depthQueries, depths. fold n.
  set (depthResults := map _ (map _ (seq 1 n))).
  assert (∀ k results, depthResults !! k = Some results ↔ k < n ∧ results = answer (k + 1))
    as Hlookup.
  { intros k results. unfold depthResults. rewrite !list_lookup_fmap.
    destruct (decide (k < n)) as [Hk|Hk].
    - rewrite lookup_seq_lt by done. simpl. unfold answer.
      replace (k + 1) with (S k) by lia.
      split; [intros [= <-]; done|intros [_ ->]; done].
    - rewrite lookup_ge_None_2 by (rewrite length_seq; lia). simpl.
      split; [done|intros [? _]; lia]. }
  destruct (combine_from_collected depthResults 0 [] nothing_seen collected_nothing)
    as (placed & Hc & Hfrom & Hall).
  exists placed. split; [done|]. split.
  - intros d row Hin. destruct (Hfrom d row Hin) as (k & results & Hk & -> & Hrow & Ht).
    apply Hlookup in Hk as [Hk ->]. split; [lia|]. split; [|done].
    by replace (0 + k + 1) with (k + 1) by lia.
  - intros d row Hd Hrow Ht.
    destruct (Hall (d - 1) (answer d) row) as [Hold|(d' & row' & Hin & Hid & Hle)];
      [|done|done| |].
    + apply Hlookup. split; [lia|]. f_equal. lia.
    + by apply elem_of_nil in Hold.
    + exists d', row'. split; [done|]. split; [done|lia].
Qed.

Lemma tier_of_elem placed d row :
  (d, row) ∈ placed → ∃ rows, tier_of placed d = Some rows ∧ row ∈ rows.
Proof.
  intros Hin. unfold tier_of.
  assert ((d, row) ∈ filter (λ p, p.1 = d) placed) as Hf
    by (by apply list_elem_of_filter).
  destruct (filter _ placed) as [|p kept]; [by apply elem_of_nil in Hf|].
  eexists. split; [done|]. apply list_elem_of_fmap. by exists (d, row).
Qed.

Lemma clamp_depth_limit maxDepth :
  Z.to_nat (Z.min (clamp_depth maxDepth) 3) = Z.to_nat (Z.min (default 3%Z maxDepth) 3).
Proof. unfold clamp_depth. f_equal. lia. Qed.

(** C2: asked for depth 5, which the clamp to 10 keeps, the tool runs
    the 1-, 2- and 3-hop traversals only; the 4- and 5-hop traversals are
    never issued and a node four hops away is not reported. *)
Lemma five_hops_requested :
  let node := λ n, {| id := n; name := n; nodeType := "Function"; filePath := "a.ts" |} in
  let executeQuery := λ q,
    match q with
    | FindTarget _ => Returned [node "n0"]
    | Traverse _ _ 1 => Returned [node "n1"]
    | Traverse _ _ 2 => Returned [node "n2"]
    | Traverse _ _ 3 => Returned [node "n3"]
    | Traverse _ _ 4 => Returned [node "n4"]
    | Traverse _ _ _ => Returned []
    end in
  Z.min 5 10 = 5%Z
  ∧ depthQueries downstream "n0" (clamp_depth (Some 5%Z))
    = [Traverse downstream "n0" 1; Traverse downstream "n0" 2; Traverse downstream "n0" 3]
  ∧ ∃ report,
      blastRadiusTool executeQuery "n0" downstream (Some 5%Z) = Returned (BlastReport report)
      ∧ totalAffected report = 3
      ∧ marker report = ["n1"; "n2"; "n3"].
Proof.
  intros node executeQuery. split; [done|]. split; [done|].
  eexists. split; [reflexivity|]. done.
Qed.

(** What the loop does for every [maxDepth]: when the target node is
    found, the traversals issued are those of [d] hops for [d] from 1 up
    to the loop bound [min(depth, 3)], whatever depth the clamp kept;
    each depth keeps the rows of its traversal whose id is non-empty and
    was not collected before, so no id occurs twice in a depth and the
    per-depth lists are pairwise disjoint; every id a traversal returns
    is collected at that depth or a smaller one. *)
Lemma blast_radius_depths (executeQuery : Query → Outcome (list Row))
    (target : string) (direction : Direction) (maxDepth : option Z)
    (targetNode : Row) (others : list Row) :
  executeQuery (FindTarget target) = Returned (targetNode :: others) →
  let limit := Z.to_nat (Z.min (default 3%Z maxDepth) 3) in
  let targetId := id targetNode in
  let answer := λ d, catch_empty (executeQuery (Traverse direction targetId d)) in
  let found := analyze executeQuery direction targetId (clamp_depth maxDepth) in
  depthQueries direction targetId (clamp_depth maxDepth)
  = map (Traverse direction targetId) (seq 1 limit)
  ∧ (blastRadiusTool executeQuery target direction maxDepth
     = Returned (BlastText (no_dependencies direction target))
     ∨ blastRadiusTool executeQuery target direction maxDepth
       = Returned (BlastReport
           {| report_target := target;
              report_direction := direction;
              totalAffected := length (allNodeIds found);
              tiers := byDepth found;
              marker := allNodeIds found |}))
  ∧ (∀ d rows, byDepth found !! d = Some rows →
       1 ≤ d ≤ limit
       ∧ NoDup (id <$> rows)
       ∧ ∀ row, row ∈ rows → row ∈ answer d ∧ truthy (id row) = true)
  ∧ (∀ d1 d2 rows1 rows2 row1 row2,
       byDepth found !! d1 = Some rows1 → byDepth found !! d2 = Some rows2 →
       d1 ≠ d2 → row1 ∈ rows1 → row2 ∈ rows2 → id row1 ≠ id row2)
  ∧ (∀ d row, 1 ≤ d ≤ limit → row ∈ answer d → truthy (id row) = true →
       ∃ d' rows' row',
         d' ≤ d ∧ byDepth found !! d' = Some rows' ∧ row' ∈ rows' ∧ id row' = id row)
  ∧ NoDup (allNodeIds found).
Proof.
  intros Hfind limit targetId answer found.
  destruct (analyze_collected executeQuery direction targetId (clamp_depth maxDepth))
    as (placed & (Hall & Hseen & Htier & Hnd) & Hfrom & Hcomplete).
  fold found in Hall, Hseen, Htier. fold answer in Hfrom, Hcomplete.
  rewrite clamp_depth_limit in Hfrom, Hcomplete. fold limit in Hfrom, Hcomplete.
  split; [|split; [|split; [|split; [|split]]]].
  - unfold depthQueries, depths. by rewrite clamp_depth_limit.
  - unfold blastRadiusTool. rewrite Hfind. fold targetId found.
    destruct (length (allNodeIds found) =? 0); [by left|by right].
  - intros d rows Hd. rewrite Htier in Hd.
    destruct (tier_of_Some placed d rows Hd) as [Hne Hrows].
    assert (∀ row, row ∈ rows → 1 ≤ d ≤ limit ∧ row ∈ answer d ∧ truthy (id row) = true)
      as Hrow by (intros row Hin%Hrows; by apply Hfrom).
    split; [|split].
    + destruct rows as [|row rows]; [done|].
      by destruct (Hrow row (list_elem_of_here _ _)).
    + by eapply tier_of_NoDup.
    + intros row Hin. by destruct (Hrow row Hin) as (_ & ? & ?).
  - intros d1 d2 rows1 rows2 row1 row2 H1 H2 Hne Hin1 Hin2 Hid.
    rewrite Htier in H1, H2.
    apply (tier_of_Some placed d1 rows1 H1) in Hin1.
    apply (tier_of_Some placed d2 rows2 H2) in Hin2.
    by destruct (ids_of_inj placed d1 row1 d2 row2 Hnd Hin1 Hin2 Hid).
  - intros d row Hd Hin Ht.
    destruct (Hcomplete d row Hd Hin Ht) as (d' & row' & Hin' & Hid & Hle).
    destruct (tier_of_elem placed d' row' Hin') as (rows' & Hrows' & Hrow').
    exists d', rows', row'. by rewrite Htier.
  - by rewrite Hall.
Qed.

Lemma blast_radius_depths_witness :
  let node := λ n, {| id := n; name := n; nodeType := "Function"; filePath := "a.ts" |} in
  let executeQuery := λ q,
    match q with
    | FindTarget _ => Returned [node "n0"]
    | Traverse _ _ 1 => Returned [node "n1"; node "n2"]
    | Traverse _ _ 2 => Returned [node "n2"; node "n3"]
    | Traverse _ _ _ => Returned []
    end in
  depthQueries upstream "n0" (clamp_depth (Some 2%Z))
  = [Traverse upstream "n0" 1; Traverse upstream "n0" 2]
  ∧ byDepth (analyze executeQuery upstream "n0" (clamp_depth (Some 2%Z)))
    = {[1 := [node "n1"; node "n2"]; 2 := [node "n3"]]}.
Proof.
  intros node executeQuery. split.
  - exact (proj1 (blast_radius_depths executeQuery "n0" upstream (Some 2%Z)
                    (node "n0") [] eq_refl)).
  - apply map_eq. intros [|[|[|d]]]; reflexivity.
Defined.

(** C9: a target name matching no node, and a found target without any
    edge in the requested direction, each make the tool return its own
    message as a value; the two messages differ from each other and from
    the message for a failed lookup, and nothing is thrown. *)
Theorem empty_results_are_messages (executeQuery : Query → Outcome (list Row))
    (target : string) (direction : Direction) (maxDepth : option Z) :
  (executeQuery (FindTarget target) = Returned [] →
     blastRadiusTool executeQuery target direction maxDepth
     = Returned (BlastText (could_not_find target)))
  ∧ (∀ targetNode others,
       executeQuery (FindTarget target) = Returned (targetNode :: others) →
       (∀ d, catch_empty (executeQuery (Traverse direction (id targetNode) d)) = []) →
       blastRadiusTool executeQuery target direction maxDepth
       = Returned (BlastText (no_dependencies direction target)))
  ∧ could_not_find target ≠ no_dependencies direction target
  ∧ ∀ error,
      error_finding target error ≠ could_not_find target
      ∧ error_finding target error ≠ no_dependencies direction target.
Proof.
  split; [|split; [|split]].
  - intros Hfind. unfold blastRadiusTool. by rewrite Hfind.
  - intros targetNode others Hfind Hnone.
    unfold blastRadiusTool. rewrite Hfind.
    destruct (analyze_collected executeQuery direction (id targetNode) (clamp_depth maxDepth))
      as (placed & (Hall & _) & Hfrom & _).
    assert (placed = []) as ->.
    { destruct placed as [|[d row] placed]; [done|].
      destruct (Hfrom d row (list_elem_of_here _ _)) as (_ & Hin & _).
      rewrite Hnone in Hin. by apply elem_of_nil in Hin. }
    by rewrite Hall.
  - discriminate.
  - intros error. split; discriminate.
Qed.

Lemma empty_results_are_messages_witness :
  let node := λ n, {| id := n; name := n; nodeType := "Function"; filePath := "a.ts" |} in
  let executeQuery := λ q,
    match q with
    | FindTarget "main" => Returned [node "Function:a.ts:main"]
    | FindTarget _ => Returned []
    | Traverse _ _ _ => Returned []
    end in
  blastRadiusTool executeQuery "nope" upstream None
  = Returned (BlastText (could_not_find "nope"))
  ∧ blastRadiusTool executeQuery "main" upstream None
    = Returned (BlastText (no_dependencies upstream "main")).
Proof.
  intros node executeQuery. split.
  - apply (proj1 (empty_results_are_messages executeQuery "nope" upstream None)).
    reflexivity.
  - apply (proj1 (proj2 (empty_results_are_messages executeQuery "main" upstream None))
             (node "Function:a.ts:main") []); [reflexivity|].
    intros d. reflexivity.
Defined.

End BlastRadiusFacts.

(** ** Further properties of the worker pool *)

Module WorkerPoolMore.
Import WorkerPool WorkerPoolFacts.

Section Settled.
Context {TInput TResult : Type}.
Implicit Types (d : Dispatch TInput TResult) (ev : Event TResult).

Lemma view_step_settled i (p : PromiseState TResult) c ev :
  p ≠ Pending → view_step i (p, c) ev = (p, c).
Proof. intros Hp. unfold view_step. simpl. by destruct p. Qed.

Lemma step_outcome_final d ev :
  wf d → outcome d ≠ StillPending → outcome (step d ev) = outcome d.
Proof.
  intros Hwf Hset. pose proof Hwf as (Hlen & _ & _ & _).
  unfold outcome in *. rewrite step_firstRejection by done.
  destruct (firstRejection d) as [e|]; [done|].
  destruct (mapM fulfilled (slots d)) as [rs|] eqn:Hm; [|done].
  pose proof (mapM_Some_1 _ _ _ Hm) as Hall.
  assert (∀ i s, slots d !! i = Some s → ∃ v, promise s = Fulfilled v ∧ rs !! i = Some v)
    as Hful.
  { intros i s Hs. destruct (Forall2_lookup_l _ _ _ _ _ Hall Hs) as (v & Hv & Hf).
    exists v. split; [|done]. unfold fulfilled in Hf.
    destruct (promise s); [done| |done]. by injection Hf as ->. }
  assert (mapM fulfilled (slots (step d ev)) = Some rs) as ->.
  { apply mapM_Some_2, Forall2_same_length_lookup_2.
    - destruct (step_lengths d ev) as (_ & -> & _). by eapply Forall2_length.
    - intros i s' v Hs' Hv.
      destruct (lookup_lt_is_Some_2 (slots d) i) as [s Hs].
      { destruct (step_lengths d ev) as (_ & <- & _). by eapply lookup_lt_Some. }
      destruct (lookup_lt_is_Some_2 (workerProgress d) i) as [c Hc].
      { rewrite Hlen. by eapply lookup_lt_Some. }
      destruct (step_view d ev i s c Hwf Hs Hc) as (s'' & Hs'' & Hp'' & _).
      rewrite Hs' in Hs''. injection Hs'' as <-.
      destruct (Hful i s Hs) as (v' & Hp & Hv').
      rewrite Hv in Hv'. injection Hv' as <-.
      rewrite view_step_settled in Hp'' by (by rewrite Hp).
      unfold fulfilled. simpl in Hp''. by rewrite Hp'', Hp. }
  destruct ev as [j msg|j err]; [done|].
  destruct (slots d !! j) as [s|] eqn:Hs; [|done].
  destruct (Hful j s Hs) as (v & Hp & _). unfold is_pending. by rewrite Hp.
Qed.

Lemma run_outcome_final d trace :
  wf d → outcome d ≠ StillPending → outcome (run d trace) = outcome d.
Proof.
  revert d. induction trace as [|ev trace IH]; intros d Hwf Hset; [done|].
  rewrite run_cons, IH.
  - by apply step_outcome_final.
  - by apply wf_step.
  - by rewrite step_outcome_final.
Qed.

Lemma run_firstRejection_origin d trace e :
  wf d →
  firstRejection (run d trace) = Some e →
  firstRejection d = Some e ∨ ∃ err, e = WorkerError err.
Proof.
  revert d. induction trace as [|ev trace IH]; intros d Hwf; [by left|].
  rewrite run_cons. intros H.
  destruct (IH (step d ev) (wf_step d ev Hwf) H) as [H1|H1]; [|by right].
  rewrite step_firstRejection in H1 by done.
  destruct (firstRejection d); [by left|].
  destruct ev as [j msg|j err]; [done|].
  destruct (slots d !! j) as [s|]; [|done].
  destruct (is_pending s); [|done]. injection H1 as <-. right. by eexists.
Qed.

Lemma first_rejection_live cpus poolSize n :
  n ≤ size (createWorkerPool cpus poolSize) →
  first_rejection (map (open_slot (TResult:=TResult) (createWorkerPool cpus poolSize)) (seq 0 n))
  = None.
Proof.
  intros Hn.
  assert (∀ j m, j + m ≤ size (createWorkerPool cpus poolSize) →
            first_rejection
              (map (open_slot (TResult:=TResult) (createWorkerPool cpus poolSize)) (seq j m))
            = None) as H.
  { intros j m. revert j. induction m as [|m IH]; intros j Hj; [done|].
    simpl. unfold slot_rejection, open_slot at 1. simpl.
    rewrite lookup_seq_lt by (simpl in Hj; lia). simpl. apply IH. lia. }
  by apply H.
Qed.

Lemma total_from (a : Z) (wp : list Z) : foldl Z.add a wp = (a + total wp)%Z.
Proof.
  unfold total. revert a. induction wp as [|x wp IH]; intros a; simpl; [lia|].
  rewrite (IH (a + x)%Z), (IH (0 + x)%Z). lia.
Qed.

Lemma total_insert (wp : list Z) i c n :
  wp !! i = Some c → total (<[i:=n]> wp) = (total wp - c + n)%Z.
Proof.
  revert i. induction wp as [|x wp IH]; intros [|i] Hi; simplify_eq/=.
  - unfold total. simpl. rewrite (total_from (0 + n)), (total_from (0 + c)). lia.
  - unfold total in *. simpl.
    rewrite (total_from (0 + x)), (total_from (0 + x) wp).
    unfold total. rewrite (IH i Hi). lia.
Qed.

End Settled.



(** X2: a settled dispatch stays settled: once the promise of a dispatch
    is resolved or rejected, no later message or error of any worker
    changes its value. *)
Theorem settled_is_final {TInput TResult : Type} pool (items : list TInput) onProgress
    (d0 : Dispatch TInput TResult) (trace later : list (Event TResult)) :
  dispatch pool items onProgress = Some (InFlight d0) →
  outcome (run d0 trace) ≠ StillPending →
  outcome (run d0 (trace ++ later)) = outcome (run d0 trace).
Proof.
  intros Hd Hset.
  assert (wf d0) as Hwf.
  { unfold dispatch in Hd. destruct items; [done|].
    destruct (split_chunks _ _); [|done]. injection Hd as <-. apply wf_start. }
  rewrite run_app. apply run_outcome_final; [by apply wf_run|done].
Qed.

Lemma settled_is_final_witness :
  outcome (run (start (TResult:=nat) (createWorkerPool 3 None) [[1]; [2]] false)
               ([MessageFrom 0 (Result 10); MessageFrom 1 (Result 20)]
                ++ [ErrorFrom 1 "late"; MessageFrom 0 (Result 99)]))
  = Resolved [10; 20].
Proof.
  apply (settled_is_final (createWorkerPool 3 None) [1; 2] false
           (start (createWorkerPool 3 None) [[1]; [2]] false)
           [MessageFrom 0 (Result 10); MessageFrom 1 (Result 20)]
           [ErrorFrom 1 "late"; MessageFrom 0 (Result 99)]);
    [reflexivity|discriminate].
Defined.

(** X3: every progress message that is heard moves the reported total by
    exactly the change of that worker's count: the total rises when the
    worker reports more than before, stays when it repeats itself, and
    falls when it reports less (nothing clamps it). *)
Theorem progress_moves_by_difference {TInput TResult : Type} cpus poolSize
    (items : list TInput) (d0 : Dispatch TInput TResult)
    (trace : list (Event TResult)) i (filesProcessed : Z) s prev :
  1 ≤ size (createWorkerPool cpus poolSize) →
  dispatch (createWorkerPool cpus poolSize) items true = Some (InFlight d0) →
  slots (run d0 trace) !! i = Some s →
  promise s = Pending →
  last (onProgressCalls (run d0 trace)) = Some prev →
  last (onProgressCalls (step (run d0 trace) (MessageFrom i (Progress filesProcessed))))
  = Some (prev + (filesProcessed - latest_count trace i))%Z.
Proof.
  intros HP Hd Hs Hp Hprev.
  assert (items ≠ []) as Hne by (intros ->; done).
  destruct (dispatch_started (TResult:=TResult) (createWorkerPool cpus poolSize)
              items true Hne) as (cs & _ & _ & _ & Hsize & Hd').
  rewrite Hd' in Hd. injection Hd as <-. specialize (Hsize HP).
  set (d := run (start (createWorkerPool cpus poolSize) cs true) trace) in *.
  assert (wf d) as Hwf by apply wf_run, wf_start.
  assert (calls_ok d) as Hok by apply calls_ok_run, calls_ok_start.
  assert (notify d = true) as Hn.
  { unfold d. by destruct (run_lengths (start (createWorkerPool cpus poolSize) cs true) trace)
      as (_ & _ & _ & ->). }
  assert (i < length cs) as Hi.
  { apply lookup_lt_Some in Hs. unfold d in Hs.
    destruct (run_lengths (start (createWorkerPool cpus poolSize) cs true) trace)
      as (_ & Hl & _). rewrite Hl in Hs. simpl in Hs.
    by rewrite length_map, length_seq in Hs. }
  destruct (start_view cpus poolSize cs true trace i Hsize Hi) as (_ & _ & _ & Hc).
  fold d in Hc.
  destruct Hwf as (_ & _ & Hslots & _). destruct (Hslots i s Hs) as [Hh _].
  unfold is_pending in Hh. rewrite Hp in Hh.
  simpl. rewrite Hs, Hh. simpl. rewrite Hn, last_snoc. f_equal.
  rewrite (total_insert _ i _ _ Hc).
  unfold calls_ok in Hok. rewrite Hn in Hok. rewrite (Hok prev Hprev). lia.
Qed.

Lemma progress_moves_by_difference_witness :
  let d0 := start (TResult:=nat) (createWorkerPool 8 (Some 4)) [[1; 2]; [3; 4]; [5]] true in
  let trace := [MessageFrom 0 (Progress 2); MessageFrom 1 (Progress 2)] in
  last (onProgressCalls (run d0 trace)) = Some 4%Z
  ∧ last (onProgressCalls (step (run d0 trace) (MessageFrom 0 (Progress 1)))) = Some 3%Z.
Proof.
  intros d0 trace. split; [reflexivity|].
  exact (progress_moves_by_difference 8 (Some 4) [1; 2; 3; 4; 5] d0 trace 0 1%Z
           {| promise := Pending; messageHandler := true; errorListener := true |} 4%Z
           ltac:(simpl; lia) eq_refl eq_refl eq_refl eq_refl).
Defined.

(** X4: a pool size of 0 is kept as given (only a missing size is
    replaced by the default): such a pool has no worker and rejects every
    non-empty dispatch with the [TypeError]; the default pool has at least
    one worker and never rejects with it. *)
Theorem pool_size_zero_is_kept {TInput TResult : Type} cpus (items : list TInput)
    onProgress (trace : list (Event TResult)) :
  items ≠ [] →
  dispatch_after (createWorkerPool cpus (Some 0)) items onProgress trace
  = Some (Failed TypeError)
  ∧ 1 ≤ size (createWorkerPool cpus None)
  ∧ dispatch_after (createWorkerPool cpus None) items onProgress trace
    ≠ Some (Failed TypeError).
Proof.
  intros Hne. split; [|split].
  - destruct (dispatch_started (TResult:=TResult) (createWorkerPool cpus (Some 0))
                items onProgress Hne) as (cs & _ & _ & Hlen & _ & Hd).
    unfold dispatch_after. rewrite Hd. f_equal. unfold outcome.
    rewrite (run_firstRejection _ trace TypeError); [done|apply wf_start|].
    destruct cs; [simpl in Hlen; lia|done].
  - simpl. lia.
  - destruct (dispatch_started (TResult:=TResult) (createWorkerPool cpus None)
                items onProgress Hne) as (cs & _ & _ & _ & Hsize & Hd).
    unfold dispatch_after. rewrite Hd. intros [= H]. unfold outcome in H.
    destruct (firstRejection _) as [e|] eqn:Hfr.
    + injection H as ->.
      apply run_firstRejection_origin in Hfr as [Hfr|[err Herr]];
        [|done|apply wf_start].
      simpl in Hfr. rewrite first_rejection_live in Hfr; [done|].
      apply Hsize. simpl. lia.
    + by destruct (mapM _ _).
Qed.

Lemma pool_size_zero_is_kept_witness :
  dispatch_after (TResult:=nat) (createWorkerPool 8 (Some 0)) [1; 2] false
    [MessageFrom 0 (Result 1)]
  = Some (Failed TypeError).
Proof. apply (pool_size_zero_is_kept 8 [1; 2] false). done. Defined.

Lemma ceil_div_small n p : 1 ≤ n → n ≤ p → ceil_div n p = 1.
Proof.
  intros Hn Hp. unfold ceil_div.
  replace (n + p - 1) with ((n - 1) + 1 * p) by lia.
  rewrite Nat.div_add by lia. rewrite Nat.div_small by lia. done.
Qed.

Lemma ceil_div_exact q p : 1 ≤ p → ceil_div (q * p) p = q.
Proof.
  intros Hp. unfold ceil_div.
  replace (q * p + p - 1) with (q * p + (p - 1)) by lia.
  rewrite Nat.div_add_l by lia. rewrite Nat.div_small by lia. lia.
Qed.

Lemma take_one_drop {A} (l : list A) k x : l !! k = Some x → take 1 (drop k l) = [x].
Proof.
  revert k. induction l as [|y l IH]; intros [|k] Hk; simplify_eq/=; [done|].
  by apply IH.
Qed.

(** X5: with at most as many items as workers, every item travels
    alone: item [i] is the whole chunk of worker [i]. *)
Theorem one_item_per_worker {TInput TResult : Type} cpus poolSize
    (items : list TInput) (onProgress : bool) :
  items ≠ [] →
  length items ≤ size (createWorkerPool cpus poolSize) →
  ∃ d : Dispatch TInput TResult,
    dispatch (createWorkerPool cpus poolSize) items onProgress = Some (InFlight d)
    ∧ chunks d = map (λ x, [x]) items
    ∧ posted d = imap (λ i x, (i, [x])) items.
Proof.
  intros Hne Hsize. set (pool := createWorkerPool cpus poolSize) in *.
  assert (1 ≤ length items) as Hn by (destruct items; [done|simpl; lia]).
  destruct (split_chunks_closed items (size pool) Hne) as [Hsplit _].
  assert (chunkSizeOf (length items) (size pool) = 1) as Hc.
  { unfold chunkSizeOf. destruct (Nat.eqb_spec (size pool) 0); [lia|].
    by apply ceil_div_small. }
  rewrite Hc in Hsplit.
  assert (ceil_div (length items) 1 = length items) as Hcount.
  { unfold ceil_div. rewrite Nat.div_1_r. lia. }
  rewrite Hcount in Hsplit.
  assert (map (nth_chunk items 1 0) (seq 0 (length items)) = map (λ x, [x]) items) as Hcs.
  { apply list_eq. intros k. rewrite !list_lookup_fmap.
    destruct (items !! k) as [x|] eqn:Hk.
    - rewrite lookup_seq_lt by (by eapply lookup_lt_Some). simpl. f_equal.
      unfold nth_chunk, slice. replace (0 + (k + 1) * 1 - (0 + k * 1)) with 1 by lia.
      replace (0 + k * 1) with k by lia. by apply take_one_drop.
    - rewrite lookup_ge_None_2; [done|]. rewrite length_seq. by apply lookup_ge_None_1. }
  rewrite Hcs in Hsplit.
  exists (start pool (map (λ x, [x]) items) onProgress).
  split; [|split; [done|]].
  - unfold dispatch. destruct items; [done|]. by rewrite Hsplit.
  - change (posted (start pool (map (λ x, [x]) items) onProgress))
      with (concat (map (post pool) (imap pair (map (λ x : TInput, [x]) items)))).
    etrans; [apply (post_live cpus poolSize 0 (map (λ x, [x]) items))|].
    + fold pool. rewrite length_map. lia.
    + rewrite imap_fmap. by apply imap_ext.
Qed.

Lemma one_item_per_worker_witness :
  ∃ d : Dispatch nat unit,
    dispatch (createWorkerPool 8 None) [4; 5; 6] false = Some (InFlight d)
    ∧ chunks d = [[4]; [5]; [6]]
    ∧ posted d = [(0, [4]); (1, [5]); (2, [6])].
Proof.
  apply (one_item_per_worker 8 None [4; 5; 6] false); [done|simpl; lia].
Defined.

(** X6: when the pool size divides the number of items, the input is
    cut into exactly as many chunks as there are workers, all of the same
    size. *)
Theorem even_split {TInput TResult : Type} cpus poolSize
    (items : list TInput) (onProgress : bool) (q : nat) :
  1 ≤ q →
  1 ≤ size (createWorkerPool cpus poolSize) →
  length items = q * size (createWorkerPool cpus poolSize) →
  ∃ d : Dispatch TInput TResult,
    dispatch (createWorkerPool cpus poolSize) items onProgress = Some (InFlight d)
    ∧ concat (chunks d) = items
    ∧ length (chunks d) = size (createWorkerPool cpus poolSize)
    ∧ Forall (λ chunk, length chunk = q) (chunks d).
Proof.
  intros Hq HP Hlen. set (pool := createWorkerPool cpus poolSize) in *.
  assert (items ≠ []) as Hne.
  { intros ->. change (length (@nil TInput)) with 0 in Hlen. nia. }
  destruct (split_chunks_closed items (size pool) Hne) as [Hsplit Hcat].
  assert (chunkSizeOf (length items) (size pool) = q) as Hc.
  { unfold chunkSizeOf. destruct (Nat.eqb_spec (size pool) 0); [lia|].
    rewrite Hlen. by apply ceil_div_exact. }
  rewrite Hc in Hsplit, Hcat.
  assert (ceil_div (length items) q = size pool) as Hcount.
  { rewrite Hlen, Nat.mul_comm. by apply ceil_div_exact. }
  rewrite Hcount in Hsplit, Hcat.
  exists (start pool (map (nth_chunk items q 0) (seq 0 (size pool))) onProgress).
  split; [|split; [done|split]].
  - unfold dispatch. destruct items; [done|]. by rewrite Hsplit.
  - change (chunks (start pool ?cs onProgress)) with cs.
    by rewrite length_map, length_seq.
  - change (chunks (start pool ?cs onProgress)) with cs.
    apply Forall_fmap, Forall_forall. intros k [_ Hk]%elem_of_seq.
    unfold compose, nth_chunk. rewrite slice_length.
    assert ((k + 1) * q ≤ size pool * q) as Hle
      by (apply Nat.mul_le_mono_r; lia).
    rewrite Nat.mul_comm in Hlen. rewrite <- Hlen in Hle.
    replace (0 + (k + 1) * q - (0 + k * q)) with q by nia.
    replace ((k + 1) * q) with (k * q + q) in Hle by nia. lia.
Qed.

Lemma even_split_witness :
  ∃ d : Dispatch nat unit,
    dispatch (createWorkerPool 8 (Some 3)) [1; 2; 3; 4; 5; 6] false = Some (InFlight d)
    ∧ length (chunks d) = 3.
Proof.
  destruct (even_split (TResult:=unit) 8 (Some 3) [1; 2; 3; 4; 5; 6] false 2)
    as (d & Hd & _ & Hlen & _); [lia|simpl; lia|done|].
  exists d. split; [exact Hd|exact Hlen].
Defined.

End WorkerPoolMore.

(** ** Further properties of the search and blast-radius tools *)

Module ToolsMore.
Import Tools BlastRadiusFacts.

(** X7: the search tool throws only what [semanticSearch] throws: a
    failing hybrid search, an index that is not built and missing
    embeddings never leave the tool as an error. *)
Theorem search_throws_only_from_semantic {Hit : Type} (env : SearchEnv Hit)
    (query : string) (limit : option Z) (error : string) :
  searchTool env query limit = Thrown error →
  isEmbeddingReady env = true
  ∧ semanticSearch env query (default 10%Z limit) = Thrown error
  ∧ (isBM25Ready env = true →
       ∃ error', hybridSearch env query (default 10%Z limit) = Thrown error').
Proof.
  unfold searchTool, semantic_only, present.
  destruct (isBM25Ready env).
  - destruct (hybridSearch env query _) as [[|row rows]|error'] eqn:Hh; [done|done|].
    destruct (isEmbeddingReady env); [|done].
    destruct (semanticSearch env query _) as [[|row rows]|e]; [done|done|].
    intros [= ->]. split; [done|]. split; [done|]. intros _. by exists error'.
  - destruct (isEmbeddingReady env); [|done].
    destruct (semanticSearch env query _) as [[|row rows]|e]; [done|done|].
    intros [= ->]. done.
Qed.

Lemma search_throws_only_from_semantic_witness :
  let env := {| hybridSearch := λ _ _, Thrown (A:=list nat) "index corrupted";
                semanticSearch := λ _ _, Thrown "embedder crashed";
                isEmbeddingReady := true;
                isBM25Ready := true |} in
  semanticSearch env "auth" 10%Z = Thrown "embedder crashed".
Proof.
  intros env.
  exact (proj1 (proj2 (search_throws_only_from_semantic env "auth" None
                         "embedder crashed" eq_refl))).
Defined.

Lemma tier_of_default placed d :
  default [] (tier_of placed d) = (filter (λ p, p.1 = d) placed).*2.
Proof. unfold tier_of. by destruct (filter _ placed). Qed.

Lemma count_by_depth (placed : list (nat * Row)) :
  (∀ d row, (d, row) ∈ placed → 1 ≤ d ≤ 3) →
  length placed
  = length (filter (λ p, p.1 = 1) placed)
    + length (filter (λ p, p.1 = 2) placed)
    + length (filter (λ p, p.1 = 3) placed).
Proof.
  induction placed as [|[d row] placed IH]; intros Hd; [done|].
  assert (1 ≤ d ≤ 3) as Hrange by (apply (Hd d row), list_elem_of_here).
  rewrite !filter_cons. simpl.
  rewrite IH by (intros d' row' Hin; apply (Hd d' row'); by apply list_elem_of_further).
  repeat case_decide; simpl; lia.
Qed.

(** X8: in a report, the first tier holds exactly the direct
    neighbours: the ids listed at depth 1 are the non-empty ids of the
    rows the 1-hop traversal returned. *)
Theorem direct_tier_is_one_hop (executeQuery : Query → Outcome (list Row))
    (target : string) (direction : Direction) (maxDepth : option Z)
    (targetNode : Row) (others : list Row) (report : Report) :
  executeQuery (FindTarget target) = Returned (targetNode :: others) →
  (1 ≤ default 3 maxDepth)%Z →
  blastRadiusTool executeQuery target direction maxDepth = Returned (BlastReport report) →
  ∀ x,
    (∃ row, row ∈ default [] (tiers report !! 1) ∧ id row = x)
    ↔ (truthy x = true
       ∧ ∃ row, row ∈ catch_empty (executeQuery (Traverse direction (id targetNode) 1))
                ∧ id row = x).
Proof.
  intros Hfind Hdepth Hrun x.
  unfold blastRadiusTool in Hrun. rewrite Hfind in Hrun.
  destruct (_ =? 0); [done|]. injection Hrun as <-. simpl.
  destruct (analyze_collected executeQuery direction (id targetNode) (clamp_depth maxDepth))
    as (placed & (_ & _ & Htier & _) & Hfrom & Hcomplete).
  rewrite clamp_depth_limit in Hfrom, Hcomplete.
  rewrite Htier. split.
  - intros (row & Hrow & <-).
    destruct (tier_of placed 1) as [rows|] eqn:Ht; [|by apply elem_of_nil in Hrow].
    apply (tier_of_Some placed 1 rows Ht) in Hrow.
    destruct (Hfrom 1 row Hrow) as (_ & Hin & Htruthy). split; [done|]. by exists row.
  - intros (Htruthy & row & Hin & <-).
    destruct (Hcomplete 1 row) as (d' & row' & Hin' & Hid & Hle); [lia|done|done|].
    destruct (Hfrom d' row' Hin') as (Hd' & _).
    assert (d' = 1) as -> by lia.
    destruct (tier_of_elem placed 1 row' Hin') as (rows & -> & Hrow). by exists row'.
Qed.

Lemma direct_tier_is_one_hop_witness :
  let node := λ n, {| id := n; name := n; nodeType := "Function"; filePath := "b.ts" |} in
  let executeQuery := λ q,
    match q with
    | FindTarget _ => Returned [node "foo"]
    | Traverse upstream _ 1 => Returned [node "bar"]
    | Traverse _ _ _ => Returned []
    end in
  let report := {| report_target := "foo"; report_direction := upstream;
                   totalAffected := 1;
                   tiers := byDepth (analyze executeQuery upstream "foo" 3%Z);
                   marker := ["bar"] |} in
  blastRadiusTool executeQuery "foo" upstream None = Returned (BlastReport report)
  ∧ ∃ row, row ∈ default [] (tiers report !! 1) ∧ id row = "bar".
Proof.
  intros node executeQuery report. split; [reflexivity|].
  apply (proj2 (direct_tier_is_one_hop executeQuery "foo" upstream None (node "foo") []
                  report eq_refl ltac:(simpl; lia) eq_refl "bar")).
  split; [done|]. exists (node "bar"). split; [apply list_elem_of_here|done].
Defined.

(** X9: the total a report announces is the number of rows it holds in
    its three tiers, and the ids it marks for highlighting are the ids of
    those rows, each once. *)
Theorem report_counts_its_tiers (executeQuery : Query → Outcome (list Row))
    (target : string) (direction : Direction) (maxDepth : option Z) (report : Report) :
  blastRadiusTool executeQuery target direction maxDepth = Returned (BlastReport report) →
  totalAffected report
  = length (default [] (tiers report !! 1))
    + length (default [] (tiers report !! 2))
    + length (default [] (tiers report !! 3))
  ∧ 1 ≤ totalAffected report
  ∧ length (marker report) = totalAffected report
  ∧ NoDup (marker report)
  ∧ ∀ x, x ∈ marker report
         ↔ ∃ d row, row ∈ default [] (tiers report !! d) ∧ id row = x.
Proof.
  intros Hrun. unfold blastRadiusTool in Hrun.
  destruct (executeQuery (FindTarget target)) as [[|targetNode others]|error]; [done| |done].
  destruct (Nat.eqb_spec (length (allNodeIds
              (analyze executeQuery direction (id targetNode) (clamp_depth maxDepth)))) 0)
    as [|Hpos]; [done|].
  injection Hrun as <-. simpl.
  destruct (analyze_collected executeQuery direction (id targetNode) (clamp_depth maxDepth))
    as (placed & (Hall & _ & Htier & Hnd) & Hfrom & _).
  rewrite !Htier, !tier_of_default, Hall in *.
  unfold ids_of in *. rewrite !length_fmap in *.
  split; [|split; [lia|split; [done|split; [done|]]]].
  - apply count_by_depth. intros d row Hin. destruct (Hfrom d row Hin) as (Hd & _).
    pose proof (Z2Nat.inj_le 0 3). lia.
  - intros x. rewrite list_elem_of_fmap. split.
    + intros ([d row] & -> & Hin). exists d, row. split; [|done].
      rewrite Htier, tier_of_default. apply list_elem_of_fmap. exists (d, row).
      split; [done|]. by apply list_elem_of_filter.
    + intros (d & row & Hin & <-). rewrite Htier, tier_of_default in Hin.
      apply list_elem_of_fmap in Hin as ([d' row'] & -> & Hin).
      apply list_elem_of_filter in Hin as [_ Hin]. by exists (d', row').
Qed.

Lemma report_counts_its_tiers_witness :
  let node := λ n, {| id := n; name := n; nodeType := "Function"; filePath := "a.ts" |} in
  let executeQuery := λ q,
    match q with
    | FindTarget _ => Returned [node "n0"]
    | Traverse _ _ 1 => Returned [node "n1"; node "n2"]
    | Traverse _ _ 2 => Returned [node "n2"; node "n3"]
    | Traverse _ _ _ => Returned []
    end in
  let report := {| report_target := "n0"; report_direction := downstream;
                   totalAffected := 3;
                   tiers := byDepth (analyze executeQuery downstream "n0" 3%Z);
                   marker := ["n1"; "n2"; "n3"] |} in
  blastRadiusTool executeQuery "n0" downstream None = Returned (BlastReport report)
  ∧ totalAffected report
    = length (default [] (tiers report !! 1))
      + length (default [] (tiers report !! 2))
      + length (default [] (tiers report !! 3)).
Proof.
  intros node executeQuery report. split; [reflexivity|].
  exact (proj1 (report_counts_its_tiers executeQuery "n0" downstream None report eq_refl)).
Defined.

(** X10: a requested depth of zero or less runs no traversal: for a
    found target the tool answers that there are no dependencies,
    whatever the graph holds. *)
Theorem nonpositive_depth_finds_nothing (executeQuery : Query → Outcome (list Row))
    (target : string) (direction : Direction) (maxDepth : Z)
    (targetNode : Row) (others : list Row) :
  executeQuery (FindTarget target) = Returned (targetNode :: others) →
  (maxDepth ≤ 0)%Z →
  depthQueries direction (id targetNode) (clamp_depth (Some maxDepth)) = []
  ∧ blastRadiusTool executeQuery target direction (Some maxDepth)
    = Returned (BlastText (no_dependencies direction target)).
Proof.
  intros Hfind Hdepth.
  assert (depths (clamp_depth (Some maxDepth)) = []) as Hnone.
  { unfold depths, clamp_depth. simpl.
    replace (Z.to_nat (Z.min (Z.min maxDepth 10) 3)) with 0 by lia. done. }
  split.
  - unfold depthQueries. by rewrite Hnone.
  - unfold blastRadiusTool. rewrite Hfind.
    unfold analyze, depthQueries. by rewrite Hnone.
Qed.

Lemma nonpositive_depth_finds_nothing_witness :
  let node := λ n, {| id := n; name := n; nodeType := "Function"; filePath := "a.ts" |} in
  let executeQuery := λ q,
    match q with
    | FindTarget _ => Returned [node "n0"]
    | Traverse _ _ _ => Returned [node "n1"]
    end in
  blastRadiusTool executeQuery "n0" downstream (Some 0%Z)
  = Returned (BlastText (no_dependencies downstream "n0")).
Proof.
  intros node executeQuery.
  apply (proj2 (nonpositive_depth_finds_nothing executeQuery "n0" downstream 0%Z
                  (node "n0") [] eq_refl ltac:(lia))).
Defined.

End ToolsMore.

(** ** Properties of the repository walker *)

Module WalkerFacts.
Import Tools Walker.

Section Walk.
Variable shouldIgnorePath : string → bool.
Variable readFile : string → string → Outcome string.
Variable repoPath : string.
Variable onProgress : bool.


Lemma read_batch_foldl total w batch :
  read_batch readFile repoPath onProgress total w batch = foldl (record_one readFile repoPath onProgress total) w batch.
Proof.
  unfold read_batch. revert w. induction batch as [|p batch IH]; intros w; [done|].
  simpl. apply IH.
Qed.

Lemma walk_loop_closed filtered : ∀ fuel start w,
  length filtered - start ≤ fuel →
  walk_loop readFile repoPath onProgress fuel filtered start w
  = Some (foldl (record_one readFile repoPath onProgress (length filtered)) w (drop start filtered)).
Proof.
  induction fuel as [|fuel IH]; intros start w Hfuel; simpl.
  - destruct (Nat.ltb_spec start (length filtered)); [lia|].
    by rewrite drop_ge by lia.
  - destruct (Nat.ltb_spec start (length filtered)).
    + rewrite IH by (unfold READ_CONCURRENCY; lia).
      rewrite read_batch_foldl. unfold WorkerPool.slice.
      replace (start + READ_CONCURRENCY - start) with READ_CONCURRENCY by lia.
      rewrite <- foldl_app, <- drop_drop. by rewrite take_drop.
    + by rewrite drop_ge by lia.
Qed.

Lemma record_one_fields total w p :
  entries (record_one readFile repoPath onProgress total w p)
  = entries w ++ option_list (entry_of readFile repoPath p)
  ∧ processed (record_one readFile repoPath onProgress total w p) = S (processed w)
  ∧ progress (record_one readFile repoPath onProgress total w p)
    = if onProgress
      then progress w ++ [(S (processed w), total, reported_path readFile repoPath p)]
      else progress w.
Proof.
  unfold record_one, record_result, settled_read, entry_of, reported_path. simpl.
  destruct (readFile repoPath p); simpl; [done|]. by rewrite app_nil_r.
Qed.

Lemma foldl_one total files : ∀ w,
  let w' := foldl (record_one readFile repoPath onProgress total) w files in
  entries w' = entries w ++ omap (entry_of readFile repoPath) files
  ∧ processed w' = processed w + length files
  ∧ progress w'
    = if onProgress
      then progress w
           ++ imap (λ k p, (processed w + S k, total, reported_path readFile repoPath p)) files
      else progress w.
Proof.
  induction files as [|p files IH]; intros w; simpl.
  - rewrite !app_nil_r. split; [done|]. split; [lia|]. by destruct onProgress.
  - destruct (IH (record_one readFile repoPath onProgress total w p)) as (He & Hp & Hg).
    destruct (record_one_fields total w p) as (He1 & Hp1 & Hg1).
    rewrite He, Hp, Hg, He1, Hp1, Hg1. split; [|split; [lia|]].
    + rewrite <- app_assoc. by destruct (entry_of readFile repoPath p).
    + destruct onProgress; [|done]. rewrite <- app_assoc. simpl.
      replace (processed w + 1) with (S (processed w)) by lia. do 2 f_equal.
      apply imap_ext. intros k q _. simpl. do 2 f_equal. lia.
Qed.

End Walk.

(** X11: the walk returns, in the order of the file list, one entry for
    every file that is not ignored and can be read, with its backslashes
    turned into slashes; a file that cannot be read is skipped and stops
    nothing, and reading in batches of 32 changes nothing. *)
Theorem walk_collects_readable_files (shouldIgnorePath : string → bool)
    (readFile : string → string → Outcome string) (repoPath : string)
    (onProgress : bool) (files : list string) :
  let filtered := filter (λ file, shouldIgnorePath file = false) files in
  ∃ w,
    walkRepository shouldIgnorePath readFile repoPath onProgress files = Some w
    ∧ entries w = omap (entry_of readFile repoPath) filtered
    ∧ processed w = length filtered.
Proof.
  intros filtered. unfold walkRepository. fold filtered.
  rewrite walk_loop_closed by lia. eexists. split; [done|].
  destruct (foldl_one readFile repoPath onProgress (length filtered) filtered nothing_walked)
    as (He & Hp & _).
  rewrite drop_0. split; [exact He|exact Hp].
Qed.

(** X12: with a progress callback, the walk calls it exactly once per
    file that is not ignored, in order, with the running count 1, 2, ...,
    the constant total, and the path of the file: normalised when it was
    read, as listed when reading failed. *)
Theorem walk_reports_every_file (shouldIgnorePath : string → bool)
    (readFile : string → string → Outcome string) (repoPath : string)
    (files : list string) :
  let filtered := filter (λ file, shouldIgnorePath file = false) files in
  ∃ w,
    walkRepository shouldIgnorePath readFile repoPath true files = Some w
    ∧ progress w
      = imap (λ k p, (S k, length filtered, reported_path readFile repoPath p)) filtered.
Proof.
  intros filtered. unfold walkRepository. fold filtered.
  rewrite walk_loop_closed by lia. eexists. split; [done|].
  destruct (foldl_one readFile repoPath true (length filtered) filtered nothing_walked)
    as (_ & _ & Hg).
  rewrite drop_0. exact Hg.
Qed.

End WalkerFacts.

(** ** Properties of the grep and read tools *)

Module FileToolsFacts.
Import Tools FileTools.

Section Grep.
Variable toLowerCase : string → string.
Variable trim : string → string.
Variable test : string → bool.

Lemma full_iff (limit : Z) (results : list Match) :
  (1 ≤ limit)%Z → full limit results = true ↔ Z.to_nat limit ≤ length results.
Proof. intros Hl. unfold full. rewrite Z.leb_le. lia. Qed.

Lemma scan_lines_closed filePath (limit : Z) lines : ∀ i results,
  (1 ≤ limit)%Z →
  length results < Z.to_nat limit →
  scan_lines trim test filePath limit i lines results
  = take (Z.to_nat limit) (results ++ matches_in trim test filePath i lines).
Proof.
  induction lines as [|text lines IH]; intros i results Hl Hlen; simpl.
  - rewrite app_nil_r, take_ge by lia. done.
  - destruct (test text); simpl; [|by apply IH].
    destruct (full limit (results ++ [found trim filePath i text])) eqn:Hfull.
    + apply full_iff in Hfull; [|done]. rewrite length_app in Hfull. simpl in Hfull.
      replace (results ++ found trim filePath i text
                 :: matches_in trim test filePath (S i) lines)
        with ((results ++ [found trim filePath i text])
                ++ matches_in trim test filePath (S i) lines)
        by (by rewrite <- app_assoc).
      rewrite take_app_le by (rewrite length_app; simpl; lia).
      rewrite take_ge by (rewrite length_app; simpl; lia). done.
    + assert (¬ Z.to_nat limit ≤ length (results ++ [found trim filePath i text])) as Hn.
      { intros H. apply full_iff in H; [|done]. congruence. }
      rewrite IH; [|done|lia]. by rewrite <- app_assoc.
Qed.

Lemma scan_files_closed fileFilter (limit : Z) fileContents : ∀ results,
  (1 ≤ limit)%Z →
  length results < Z.to_nat limit →
  scan_files toLowerCase trim test fileFilter limit fileContents results
  = take (Z.to_nat limit)
         (results ++ all_matches toLowerCase trim test fileFilter fileContents).
Proof.
  induction fileContents as [|[filePath text] rest IH]; intros results Hl Hlen; simpl.
  - unfold all_matches. simpl. rewrite app_nil_r, take_ge by lia. done.
  - unfold all_matches. simpl. fold (all_matches toLowerCase trim test fileFilter rest).
    destruct (searched toLowerCase fileFilter filePath); simpl; [|by apply IH].
    rewrite scan_lines_closed by done.
    generalize (matches_in trim test filePath 0 (split_on newline text)). intros hits.
    destruct (full limit (take (Z.to_nat limit) (results ++ hits))) eqn:Hfull.
    + apply full_iff in Hfull; [|done]. rewrite length_take in Hfull.
      rewrite app_assoc. rewrite (take_app_le (results ++ hits)) by lia. done.
    + assert (length (results ++ hits) < Z.to_nat limit) as Hshort.
      { destruct (decide (length (results ++ hits) < Z.to_nat limit)); [done|].
        assert (full limit (take (Z.to_nat limit) (results ++ hits)) = true); [|congruence].
        apply full_iff; [done|]. rewrite length_take. lia. }
      rewrite take_ge by lia. rewrite IH by done. by rewrite <- app_assoc.
Qed.

Lemma scan_lines_first filePath (limit : Z) lines : ∀ i,
  (limit ≤ 0)%Z →
  scan_lines trim test filePath limit i lines []
  = take 1 (matches_in trim test filePath i lines).
Proof.
  induction lines as [|text lines IH]; intros i Hl; simpl; [done|].
  destruct (test text); simpl; [|by apply IH].
  unfold full. simpl. rewrite take_0.
  destruct (Z.leb_spec limit (Z.of_nat 1)); [done|lia].
Qed.

End Grep.

(** X13: with a limit of at least 1, grep returns the first [limit]
    matching lines, taken file by file in the order of the map and line
    by line within a file; files that fail the filter contribute
    nothing. *)
Theorem grep_returns_first_matches (toLowerCase trim : string → string)
    (RegExp : string → string → Outcome (string → bool))
    (fileContents : list (string * string)) (pattern : string)
    (fileFilter : option string) (caseSensitive : option bool) (maxResults : option Z)
    (test : string → bool) :
  let limit := default 100%Z maxResults in
  (1 ≤ limit)%Z →
  RegExp pattern (if default false caseSensitive then "g" else "gi") = Returned test →
  grepTool toLowerCase trim RegExp fileContents pattern fileFilter caseSensitive maxResults
  = Returned (report_matches pattern fileFilter limit
                (take (Z.to_nat limit)
                      (all_matches toLowerCase trim test fileFilter fileContents))).
Proof.
  intros limit Hl Hre. unfold grepTool. rewrite Hre. fold limit.
  rewrite scan_files_closed; [done|done|simpl; lia].
Qed.

(** X14: with a limit of zero or less, grep looks at the first file
    that passes the filter only, and returns its first matching line if it
    has one. *)
Theorem grep_without_limit_stops_early (toLowerCase trim : string → string)
    (RegExp : string → string → Outcome (string → bool))
    (fileContents : list (string * string)) (pattern : string)
    (fileFilter : option string) (caseSensitive : option bool) (limit : Z)
    (test : string → bool) :
  (limit ≤ 0)%Z →
  RegExp pattern (if default false caseSensitive then "g" else "gi") = Returned test →
  grepTool toLowerCase trim RegExp fileContents pattern fileFilter caseSensitive (Some limit)
  = Returned (report_matches pattern fileFilter limit
      match List.filter (λ entry, searched toLowerCase fileFilter entry.1) fileContents with
      | [] => []
      | (filePath, text) :: _ =>
          take 1 (matches_in trim test filePath 0 (split_on newline text))
      end).
Proof.
  intros Hl Hre. unfold grepTool. rewrite Hre. simpl. do 2 f_equal.
  induction fileContents as [|[filePath text] rest IH]; simpl; [done|].
  destruct (searched toLowerCase fileFilter filePath); simpl; [|exact IH].
  rewrite scan_lines_first by done.
  unfold full. destruct (Z.leb_spec limit (Z.of_nat (length (take 1
    (matches_in trim test filePath 0 (split_on newline text)))))); [done|lia].
Qed.

Lemma grep_returns_first_matches_witness :
  let same := λ s : string, s in
  let RegExp := λ (pattern flags : string), Returned (λ text, includes text pattern) in
  let fileContents := [("a.ts", "let x" +:+ nl +:+ "TODO one" +:+ nl +:+ "TODO two");
                       ("b.md", "TODO doc");
                       ("c.ts", "TODO three")] in
  all_matches same same (λ text, includes text "TODO") (Some ".ts") fileContents
  = [ {| file := "a.ts"; line := 2; content := "TODO one" |};
      {| file := "a.ts"; line := 3; content := "TODO two" |};
      {| file := "c.ts"; line := 1; content := "TODO three" |} ]
  ∧ grepTool same same RegExp fileContents "TODO" (Some ".ts") None (Some 2%Z)
    = Returned (report_matches "TODO" (Some ".ts") 2%Z
        (take 2 (all_matches same same (λ text, includes text "TODO") (Some ".ts")
                   fileContents))).
Proof.
  intros same RegExp fileContents. split; [reflexivity|].
  apply (grep_returns_first_matches same same RegExp fileContents "TODO" (Some ".ts") None
           (Some 2%Z) (λ text, includes text "TODO")); [simpl; lia|reflexivity].
Defined.

Lemma grep_without_limit_stops_early_witness :
  let same := λ s : string, s in
  let RegExp := λ (pattern flags : string), Returned (λ text, includes text pattern) in
  let fileContents := [("a.ts", "let x"); ("c.ts", "TODO three")] in
  grepTool same same RegExp fileContents "TODO" None None (Some 0%Z)
  = Returned (report_matches "TODO" None 0%Z []).
Proof.
  intros same RegExp fileContents.
  apply (grep_without_limit_stops_early same same RegExp fileContents "TODO" None None 0%Z
           (λ text, includes text "TODO")); [lia|reflexivity].
Defined.

Section Read.
Variable toLowerCase : string → string.

Lemma elem_of_insert_desc c sorted x :
  x ∈ insert_desc c sorted ↔ x = c ∨ x ∈ sorted.
Proof.
  induction sorted as [|y sorted IH]; simpl.
  - rewrite list_elem_of_singleton, elem_of_nil. tauto.
  - destruct (score y <? score c)%Z.
    + by rewrite elem_of_cons.
    + rewrite !elem_of_cons, IH. tauto.
Qed.

Lemma elem_of_sort_desc candidates x : x ∈ sort_desc candidates ↔ x ∈ candidates.
Proof.
  unfold sort_desc.
  assert (∀ acc, x ∈ foldl (λ sorted c, insert_desc c sorted) acc candidates
                 ↔ x ∈ acc ∨ x ∈ candidates) as H.
  { induction candidates as [|c candidates IH]; intros acc; simpl.
    - rewrite elem_of_nil. tauto.
    - rewrite IH, elem_of_insert_desc, elem_of_cons. tauto. }
  rewrite H, elem_of_nil. tauto.
Qed.

Lemma insert_desc_best c sorted : head_is_best sorted → head_is_best (insert_desc c sorted).
Proof.
  destruct sorted as [|y sorted]; simpl.
  - intros _ x ->%list_elem_of_singleton. lia.
  - intros Hbest. destruct (Z.ltb_spec (score y) (score c)); simpl.
    + intros x [->|Hx]%elem_of_cons; [lia|]. specialize (Hbest x Hx). lia.
    + intros x [->|Hx]%elem_of_cons; [lia|].
      apply elem_of_insert_desc in Hx as [->|Hx]; [lia|].
      apply Hbest. by apply list_elem_of_further.
Qed.

Lemma sort_desc_best candidates : head_is_best (sort_desc candidates).
Proof.
  unfold sort_desc.
  assert (∀ acc, head_is_best acc →
            head_is_best (foldl (λ sorted c, insert_desc c sorted) acc candidates)) as H.
  { induction candidates as [|c candidates IH]; intros acc Hacc; [done|].
    simpl. by apply IH, insert_desc_best. }
  by apply H.
Qed.

Lemma elem_of_candidates_of normalizedRequest fileContents c :
  c ∈ candidates_of toLowerCase normalizedRequest fileContents
  ↔ path c ∈ keys fileContents
    ∧ candidate_score toLowerCase normalizedRequest (path c) = Some (score c).
Proof.
  unfold candidates_of, keys. rewrite list_elem_of_omap. split.
  - intros ([k text] & Hin & Hc). simpl in Hc.
    destruct (candidate_score toLowerCase normalizedRequest k) as [s|] eqn:Hs; [|done].
    injection Hc as <-. simpl. split; [|done].
    apply list_elem_of_fmap. by exists (k, text).
  - intros [([k text] & Hk & Hin)%list_elem_of_fmap Hs]. simpl in Hk.
    exists (k, text). split; [done|]. simpl. rewrite <- Hk, Hs. simpl.
    by destruct c.
Qed.

Lemma get_Some_key fileContents key text :
  get fileContents key = Some text → key ∈ keys fileContents.
Proof.
  unfold keys. induction fileContents as [|[k t] rest IH]; simpl; [done|].
  destruct (String.eqb_spec k key) as [->|Hne].
  - intros _. apply list_elem_of_here.
  - intros H. by apply list_elem_of_further, IH.
Qed.

Lemma present_text_Some found text :
  present_text found = Some text ↔ found = Some text ∧ truthy text = true.
Proof.
  unfold present_text. destruct found as [t|]; [|split; [done|by intros [? _]]].
  destruct (truthy t) eqn:Ht; split.
  - by intros [= ->].
  - by intros [[= ->] _].
  - done.
  - intros [[= ->] H]. congruence.
Qed.

End Read.

(** X15: whatever the request, the read tool either shows a file of
    the map under its own path with its own, non-empty content, or
    answers that the file was not found, suggesting at most five paths of
    the map; a path that is a key with non-empty content is shown as
    itself, without any fuzzy matching. *)
Theorem read_shows_what_the_map_holds (toLowerCase : string → string)
    (fileContents : list (string * string)) (filePath : string) :
  match read_choice toLowerCase fileContents filePath with
  | Some (actualPath, text) =>
      get fileContents actualPath = Some text
      ∧ truthy text = true
      ∧ readTool toLowerCase fileContents filePath = show_file actualPath text
  | None =>
      readTool toLowerCase fileContents filePath
      = not_found filePath (similar_to toLowerCase fileContents filePath)
      ∧ length (similar_to toLowerCase fileContents filePath) ≤ 5
      ∧ ∀ suggestion, suggestion ∈ similar_to toLowerCase fileContents filePath →
          suggestion ∈ keys fileContents
  end
  ∧ ∀ text, get fileContents filePath = Some text → truthy text = true →
      readTool toLowerCase fileContents filePath = show_file filePath text.
Proof.
  split.
  - unfold readTool.
    destruct (read_choice toLowerCase fileContents filePath) as [[actualPath text]|] eqn:Hc.
    + unfold read_choice in Hc.
      destruct (present_text (get fileContents filePath)) as [t|] eqn:Hexact.
      * injection Hc as <- <-. apply present_text_Some in Hexact as [? ?]. done.
      * destruct (sort_desc _) as [|best rest]; [done|].
        destruct (present_text (get fileContents (path best))) as [t|] eqn:Hbest; [|done].
        injection Hc as <- <-. apply present_text_Some in Hbest as [? ?]. done.
    + split; [done|]. unfold similar_to. split.
      * rewrite length_take. lia.
      * intros suggestion (i & Hin & _)%elem_of_take.
        apply list_elem_of_lookup_2, list_elem_of_In, filter_In in Hin as [Hin _].
        by apply list_elem_of_In.
  - intros text Hget Htruthy. unfold readTool, read_choice.
    rewrite Hget. simpl. by rewrite Htruthy.
Qed.

(** X16: when the path asked for is not a key with content and the
    tool still shows a file, that file is a candidate of the highest
    score: no path of the map scores higher against the request. *)
Theorem read_prefers_the_best_candidate (toLowerCase : string → string)
    (fileContents : list (string * string)) (filePath actualPath text : string) :
  present_text (get fileContents filePath) = None →
  read_choice toLowerCase fileContents filePath = Some (actualPath, text) →
  let normalizedRequest := toLowerCase (Walker.forward_slashes filePath) in
  ∃ best,
    candidate_score toLowerCase normalizedRequest actualPath = Some best
    ∧ ∀ other s, other ∈ keys fileContents →
        candidate_score toLowerCase normalizedRequest other = Some s → (s ≤ best)%Z.
Proof.
  intros Hexact Hc normalizedRequest. unfold read_choice in Hc. rewrite Hexact in Hc.
  fold normalizedRequest in Hc.
  pose proof (sort_desc_best (candidates_of toLowerCase normalizedRequest fileContents))
    as Hbest.
  destruct (sort_desc _) as [|best rest] eqn:Hsort; [done|].
  destruct (present_text (get fileContents (path best))) as [t|]; [|done].
  injection Hc as <- <-.
  assert (best ∈ candidates_of toLowerCase normalizedRequest fileContents) as Hin.
  { apply elem_of_sort_desc. rewrite Hsort. apply list_elem_of_here. }
  apply elem_of_candidates_of in Hin as [_ Hscore].
  exists (score best). split; [done|].
  intros other s Hkey Hs.
  apply (Hbest {| path := other; score := s |}).
  rewrite <- Hsort. apply elem_of_sort_desc, elem_of_candidates_of. done.
Qed.

Lemma read_prefers_the_best_candidate_witness :
  let same := λ s : string, s in
  let fileContents := [("src/core/utils.ts", "export {}"); ("src/utils.ts", "export const x = 1")] in
  read_choice same fileContents "utils.ts" = Some ("src/utils.ts", "export const x = 1")
  ∧ ∃ best, candidate_score same "utils.ts" "src/utils.ts" = Some best
            ∧ ∀ other s, other ∈ keys fileContents →
                candidate_score same "utils.ts" other = Some s → (s ≤ best)%Z.
Proof.
  intros same fileContents. split; [reflexivity|].
  apply (read_prefers_the_best_candidate same fileContents "utils.ts" "src/utils.ts"
           "export const x = 1"); reflexivity.
Defined.

Lemma read_shows_what_the_map_holds_witness :
  let same := λ s : string, s in
  let fileContents := [("README.md", EmptyString); ("src/a.ts", "let a")] in
  readTool same fileContents "src/a.ts" = show_file "src/a.ts" "let a"
  ∧ readTool same fileContents "README.md"
    = not_found "README.md" (similar_to same fileContents "README.md").
Proof.
  intros same fileContents. split.
  - apply (proj2 (read_shows_what_the_map_holds same fileContents "src/a.ts"));
      reflexivity.
  - exact (proj1 (proj1 (read_shows_what_the_map_holds same fileContents "README.md"))).
Defined.

End FileToolsFacts.

(** ** Properties of the daemon client *)

Module DaemonFacts.
Import Daemon.

Section Client.
Context {Value Context : Type}.
Implicit Types (c : DaemonClient Value Context) (ev : Event Value Context).
Implicit Types (pending : list (string * nat)).

Lemma request_id_inj n m : request_id n = request_id m → n = m.
Proof.
  unfold request_id. intros H. simpl in H. injection H as H.
  change (pretty n = pretty m) in H. by apply (inj pretty).
Qed.

Lemma waiting_Some pending key n : waiting pending key = Some n → (key, n) ∈ pending.
Proof.
  induction pending as [|[k m] rest IH]; simpl; [done|].
  destruct (String.eqb_spec k key) as [->|Hne].
  - intros [= ->]. apply list_elem_of_here.
  - intros H. by apply list_elem_of_further, IH.
Qed.

Lemma elem_of_delete pending key k n :
  (k, n) ∈ delete key pending ↔ (k, n) ∈ pending ∧ k ≠ key.
Proof.
  unfold delete. rewrite list_elem_of_In, filter_In, <- list_elem_of_In. simpl.
  destruct (String.eqb_spec k key) as [->|Hne]; simpl.
  - split; [by intros [_ ?]|by intros [_ ?]].
  - split; [by intros [? _]|by intros [? _]].
Qed.

Lemma delete_sublist pending key : delete key pending `sublist_of` pending.
Proof.
  unfold delete. induction pending as [|entry rest IH]; simpl; [done|].
  destruct (negb _); [by apply sublist_skip|by apply sublist_cons].
Qed.

Lemma set_fresh pending key n :
  (∀ k m, (k, m) ∈ pending → k ≠ key) → set key n pending = pending ++ [(key, n)].
Proof.
  induction pending as [|[k m] rest IH]; intros Hfresh; simpl; [done|].
  destruct (String.eqb_spec k key) as [->|Hne].
  - by destruct (Hfresh key m (list_elem_of_here _ _)).
  - rewrite IH; [done|]. intros k' m' Hin. apply (Hfresh k' m').
    by apply list_elem_of_further.
Qed.

Lemma tidy_new : tidy (new_client (Value:=Value) (Context:=Context)).
Proof.
  unfold tidy. simpl. split; [|split; [|split; [|split]]].
  - intros key n H. by apply elem_of_nil in H.
  - apply NoDup_nil_2.
  - intros n H. by apply elem_of_nil in H.
  - apply NoDup_nil_2.
  - intros n Hn. lia.
Qed.

(** Settling the call that waits under [key]. *)
Lemma tidy_settle c key n outcome :
  tidy c →
  waiting (pendingRequests c) key = Some n →
  tidy {| ws := ws c; pendingRequests := delete key (pendingRequests c);
          requestId := requestId c; _context := _context c; sent := sent c;
          settled := settled c ++ [(n, outcome)];
          refused := refused c; notified := notified c |}.
Proof.
  intros (Hid & Hnd & Hset & Hnds & Hall) Hw. apply waiting_Some in Hw.
  destruct (Hid key n Hw) as [-> Hn].
  unfold tidy. simpl. rewrite fmap_app. simpl.
  assert (n ∉ (delete (request_id n) (pendingRequests c)).*2) as Hgone.
  { intros ([k m] & Hm & Hin)%list_elem_of_fmap. simpl in Hm. subst m.
    apply elem_of_delete in Hin as [Hin Hne]. by destruct (Hid k n Hin) as [-> _]. }
  split; [|split; [|split; [|split]]].
  - intros k m [Hin _]%elem_of_delete. by apply Hid.
  - eapply sublist_NoDup; [exact Hnd|]. apply fmap_sublist, delete_sublist.
  - intros m [Hm| ->%list_elem_of_singleton]%elem_of_app.
    + destruct (Hset m Hm) as [? Hnot]. split; [done|].
      intros ([k m'] & Hm' & Hin)%list_elem_of_fmap. simpl in Hm'. subst m'.
      apply elem_of_delete in Hin as [Hin _]. apply Hnot.
      apply list_elem_of_fmap. by exists (k, m).
    + done.
  - apply NoDup_app. split; [done|]. split; [|apply NoDup_singleton].
    intros m Hm ->%list_elem_of_singleton. destruct (Hset n Hm) as [_ Hnot].
    apply Hnot. apply list_elem_of_fmap. by exists (request_id n, n).
  - intros m Hm. destruct (decide (m = n)) as [->|Hne].
    + right. apply elem_of_app. right. apply list_elem_of_here.
    + destruct (Hall m Hm) as [([k m'] & Hm' & Hin)%list_elem_of_fmap|Hs].
      * simpl in Hm'. subst m'. left. apply list_elem_of_fmap. exists (k, m).
        split; [done|]. apply elem_of_delete. split; [done|].
        destruct (Hid k m Hin) as [-> _]. intros Heq%request_id_inj. done.
      * right. apply elem_of_app. by left.
Qed.

Lemma tidy_step c ev : tidy c → tidy (step c ev).
Proof.
  intros Htidy. pose proof Htidy as (Hid & Hnd & Hset & Hnds & Hall).
  destruct ev as [| |[msg|]| |method params|key|]; simpl; try done.
  - unfold handleMessage.
    destruct (if bool_decide _ then context msg else None); [done|].
    destruct (if truthy (id msg) then _ else None) as [n|] eqn:Hw; [|done].
    destruct (truthy (id msg)); [|done]. by apply tidy_settle.
  - unfold tidy. simpl. rewrite fmap_app, <- list_fmap_compose.
    split; [intros k n H; by apply elem_of_nil in H|]. split; [apply NoDup_nil_2|].
    split; [|split].
    + intros n [Hn|Hn]%elem_of_app.
      * destruct (Hset n Hn) as [Hrange _]. split; [done|].
        intros Hin. by apply elem_of_nil in Hin.
      * split; [|intros Hin'; by apply elem_of_nil in Hin'].
        apply list_elem_of_fmap in Hn as ([k m] & -> & Hin). by apply (Hid k m).
    + apply NoDup_app. split; [done|]. split; [|exact Hnd].
      intros n Hn Hp. by destruct (Hset n Hn).
    + intros n Hn. right. apply elem_of_app.
      destruct (Hall n Hn); [by right|by left].
  - destruct (isConnected c); [|done].
    assert (∀ k m, (k, m) ∈ pendingRequests c → k ≠ request_id (S (requestId c))) as Hfresh.
    { intros k m Hin Heq. destruct (Hid k m Hin) as [-> Hm].
      apply request_id_inj in Heq. lia. }
    unfold tidy. simpl. rewrite set_fresh by done. rewrite fmap_app. simpl.
    split; [|split; [|split; [|split]]].
    + intros k n [Hin|[= -> ->]%list_elem_of_singleton]%elem_of_app.
      * destruct (Hid k n Hin). split; [done|lia].
      * split; [done|lia].
    + apply NoDup_app. split; [done|]. split; [|apply NoDup_singleton].
      intros n ([k m] & Hm & Hin)%list_elem_of_fmap ->%list_elem_of_singleton.
      simpl in Hm. subst m. destruct (Hid k _ Hin). lia.
    + intros n Hn. destruct (Hset n Hn) as [? Hnot]. split; [lia|].
      intros [Hp| ->%list_elem_of_singleton]%elem_of_app; [done|lia].
    + done.
    + intros n Hn. destruct (decide (n = S (requestId c))) as [->|Hne].
      * left. apply elem_of_app. right. apply list_elem_of_here.
      * destruct (Hall n) as [Hp|Hs]; [lia| |by right].
        left. apply elem_of_app. by left.
  - destruct (waiting (pendingRequests c) key) as [n|] eqn:Hw; [|done].
    by apply tidy_settle.
Qed.

Lemma client_run_snoc trace ev : run (trace ++ [ev]) = step (run trace) ev.
Proof. unfold run. apply foldl_snoc. Qed.

Lemma tidy_run trace : tidy (run (Value:=Value) (Context:=Context) trace).
Proof.
  induction trace as [|ev trace IH] using rev_ind; [apply tidy_new|].
  rewrite client_run_snoc. by apply tidy_step.
Qed.

End Client.

Lemma settled_once {Value : Type} (log : list (nat * Settlement Value)) n o1 o2 :
  NoDup log.*1 → (n, o1) ∈ log → (n, o2) ∈ log → o1 = o2.
Proof.
  induction log as [|[m o] log IH]; simpl.
  - intros _ H. by apply elem_of_nil in H.
  - intros [Hnotin Hnd]%NoDup_cons [H1|H1]%elem_of_cons [H2|H2]%elem_of_cons.
    + congruence.
    + injection H1 as -> ->. destruct Hnotin. apply list_elem_of_fmap. by exists (m, o2).
    + injection H2 as -> ->. destruct Hnotin. apply list_elem_of_fmap. by exists (m, o1).
    + by apply IH.
Qed.

(** X17: whatever happens to a client, no call is settled twice, a
    call that still waits has not been settled, and the calls that wait
    do so under distinct ids, each under the id made from its own number. *)
Theorem calls_settle_at_most_once {Value Context : Type}
    (trace : list (Event Value Context)) :
  let c := run trace in
  NoDup (settled c).*1
  ∧ NoDup (pendingRequests c).*1
  ∧ ∀ key n, (key, n) ∈ pendingRequests c →
      key = request_id n ∧ n ∉ (settled c).*1.
Proof.
  intros c. destruct (tidy_run trace) as (Hid & Hnd & Hset & Hnds & _). fold c in Hid, Hnd, Hset, Hnds.
  split; [done|]. split.
  - assert ((pendingRequests c).*1 = request_id <$> (pendingRequests c).*2) as ->.
    { rewrite <- list_fmap_compose. apply list_fmap_ext.
      intros i [k n] Hin. simpl. apply list_elem_of_lookup_2 in Hin.
      by destruct (Hid k n Hin). }
    apply NoDup_fmap_2_strong; [|done]. intros n m _ _. apply request_id_inj.
  - intros key n Hin. destruct (Hid key n Hin) as [-> _]. split; [done|].
    intros Hs. destruct (Hset n Hs) as [_ Hnot]. apply Hnot.
    apply list_elem_of_fmap. by exists (request_id n, n).
Qed.

Lemma calls_settle_at_most_once_witness :
  let answer := {| id := "req_1"; method := None; params := None; result := Some 42;
                   error := None; type := None; context := @None unit |} in
  let trace := [Connect; OnOpen; CallTool "search" 7; CallTool "read" 8;
                OnMessage (Some answer); OnMessage (Some answer); OnTimeout "req_1"] in
  settled (run trace) = [(1, Resolve (Some 42))]
  ∧ pendingRequests (run trace) = [("req_2", 2)]
  ∧ NoDup (settled (run trace)).*1.
Proof.
  intros answer trace. split; [reflexivity|]. split; [reflexivity|].
  exact (proj1 (calls_settle_at_most_once trace)).
Defined.

(** X18: a call resolves only with the result of a response that
    carried the id of this very call and no error. *)
Theorem resolved_by_own_response {Value Context : Type}
    (trace : list (Event Value Context)) (n : nat) (value : option Value) :
  (n, Resolve value) ∈ settled (run trace) →
  ∃ msg,
    OnMessage (Some msg) ∈ trace
    ∧ id msg = request_id n
    ∧ error msg = None
    ∧ result msg = value.
Proof.
  induction trace as [|ev trace IH] using rev_ind.
  - intros H. by apply elem_of_nil in H.
  - rewrite client_run_snoc.
    assert (∀ msg, OnMessage (Some msg) ∈ trace → OnMessage (Some msg) ∈ trace ++ [ev])
      as Hkeep by (intros msg Hin; apply elem_of_app; by left).
    assert ((n, Resolve value) ∈ settled (run trace) →
            ∃ msg, OnMessage (Some msg) ∈ trace ++ [ev] ∧ id msg = request_id n
                   ∧ error msg = None ∧ result msg = value) as Hold.
    { intros H. destruct (IH H) as (msg & ? & ? & ? & ?). exists msg. auto. }
    destruct (tidy_run trace) as (Hid & _).
    destruct ev as [| |[msg|]| |method params|key|]; simpl; try exact Hold.
    + unfold handleMessage.
      destruct (if bool_decide _ then context msg else None); [exact Hold|].
      destruct (if truthy (id msg) then _ else None) as [m|] eqn:Hw; [|exact Hold].
      destruct (truthy (id msg)); [|done]. simpl.
      intros [H|H%list_elem_of_singleton]%elem_of_app; [by apply Hold|].
      apply waiting_Some in Hw. destruct (Hid _ _ Hw) as [Hkey _].
      destruct (error msg) eqn:He; [done|]. injection H as -> ->.
      exists msg. split; [|done]. apply elem_of_app. right. apply list_elem_of_here.
    + intros [H|H]%elem_of_app; [by apply Hold|].
      apply list_elem_of_fmap in H as (entry & H & _). done.
    + destruct (isConnected (run trace)); exact Hold.
    + destruct (waiting _ key); [|exact Hold]. simpl.
      intros [H|H%list_elem_of_singleton]%elem_of_app; [by apply Hold|done].
Qed.

Lemma resolved_by_own_response_witness :
  let answer := {| id := "req_1"; method := None; params := None; result := Some 42;
                   error := None; type := None; context := @None unit |} in
  let trace := [Connect; OnOpen; CallTool "search" 7; OnMessage (Some answer)] in
  settled (run trace) = [(1, Resolve (Some 42))]
  ∧ ∃ msg, OnMessage (Some msg) ∈ trace ∧ id msg = request_id 1
           ∧ error msg = None ∧ result msg = Some 42.
Proof.
  intros answer trace. split; [reflexivity|].
  apply (resolved_by_own_response trace 1 (Some 42)). apply list_elem_of_here.
Defined.

(** X19: when the socket closes, nothing is left waiting: every call
    made so far has been settled, exactly once (by its response, its
    timeout, or the rejection the close itself hands out). *)
Theorem close_settles_every_call {Value Context : Type}
    (trace : list (Event Value Context)) :
  let c := run (trace ++ [OnClose]) in
  pendingRequests c = []
  ∧ isConnected c = false
  ∧ ∀ n, 1 ≤ n ≤ requestId c →
      ∃ outcome, (n, outcome) ∈ settled c
                 ∧ ∀ outcome', (n, outcome') ∈ settled c → outcome' = outcome.
Proof.
  intros c. destruct (tidy_run (trace ++ [OnClose])) as (_ & _ & _ & Hnds & Hall).
  fold c in Hnds, Hall.
  assert (pendingRequests c = []) as Hnone by (unfold c; by rewrite client_run_snoc).
  split; [done|]. split; [unfold c; by rewrite client_run_snoc|].
  intros n Hn. destruct (Hall n Hn) as [Hp|Hs].
  - rewrite Hnone in Hp. by apply elem_of_nil in Hp.
  - apply list_elem_of_fmap in Hs as ([m outcome] & -> & Hin). simpl.
    exists outcome. split; [done|]. intros outcome' Hin'.
    by apply (settled_once (settled c) m).
Qed.

Lemma close_settles_every_call_witness :
  let trace : list (Event nat unit) :=
    [Connect; OnOpen; CallTool "search" 7; CallTool "read" 8; OnTimeout "req_1"] in
  settled (run (trace ++ [OnClose]))
  = [(1, Reject "Request timeout"); (2, Reject "Connection closed")]
  ∧ ∃ outcome, (2, outcome) ∈ settled (run (trace ++ [OnClose]))
               ∧ ∀ outcome', (2, outcome') ∈ settled (run (trace ++ [OnClose])) →
                   outcome' = outcome.
Proof.
  intros trace. split; [reflexivity|].
  apply (proj2 (proj2 (close_settles_every_call trace)) 2). simpl. lia.
Defined.

End DaemonFacts.
